(** * Rhythm-game timing engine of [src/client/game/App.tsx]

    A shallow embedding of the engine inside the React component [App]:
    the rating function, the key-combination resolver, the track scheduler
    ([spawnFromTrack]), the per-frame lifecycle ([animate]), the judgment
    ([handleCellPress]) and the keyboard handlers.

    Modelling conventions.
    - Times ([Date.now()], spawn offsets, window bounds) are integer
      milliseconds: [Z].
    - [Circle.size] and the pixel coordinates are JavaScript numbers that
      arise from divisions; they are modelled as exact rationals [Q].  The
      quotient [elapsed / duration] agrees with the JavaScript one whenever
      [duration <> 0]; every circle the program creates has
      [duration = GROWTH_DURATION].
    - React state updates ([setCells], [setIsPlaying]) are applied at the
      point of the call, in call order. *)

From Stdlib Require Import ZArith QArith Qminmax Qround Lia Lqa List Bool
  Sorted.
From stdpp Require Import base decidable list gmap strings.
Import ListNotations.

Local Open Scope Z_scope.

(** ** Data model *)

Inductive HitRating := ok | good | great | perfect.

Inductive HitStatus := correct | incorrect | miss.

Record Position := mkPosition { pos_x : Q; pos_y : Q }.

(** The template string [`${item.cellIndex}-${item.spawnTime}-${index}`].
    The three numbers are kept apart; the rendering is injective on the
    circles the program creates (one digit, a dash, the spawn time, and the
    index after the last dash). *)
Record CircleId := mkCircleId
  { id_cellIndex : Z; id_spawnTime : Z; id_index : nat }.

Record Circle := mkCircle
  { id : CircleId;
    size : Q;
    startTime : Z;
    duration : Z;
    hitStatus : option HitStatus;
    hitTime : option Z;
    hitRating : option HitRating;
    hitWindowStart : Z;
    hitWindowEnd : Z;
    perfectTime : Z;
    cellIndex : Z;
    spawnPosition : Position;
    targetPosition : Position;
    currentPosition : Position }.

Record GridCell := mkGridCell { index : Z; circles : list Circle }.

Record TrackItem := mkTrackItem { itemCellIndex : Z; spawnTime : Z }.

Definition Track := list TrackItem.

#[global] Instance HitRating_eq_dec : EqDecision HitRating.
Proof. solve_decision. Defined.
#[global] Instance HitStatus_eq_dec : EqDecision HitStatus.
Proof. solve_decision. Defined.
#[global] Instance CircleId_eq_dec : EqDecision CircleId.
Proof. solve_decision. Defined.

Definition GRID_SIZE : Z := 3.
Definition CENTER_INDEX : Z := 4.
Definition GROWTH_DURATION : Z := 1000.
Definition HIT_WINDOW_START : Z := 150.
Definition HIT_WINDOW_DURATION : Z := 200.
Definition HIT_FEEDBACK_DURATION : Z := 100.

Definition PERFECT_WINDOW : Z := 25.
Definition GREAT_WINDOW : Z := 50.
Definition GOOD_WINDOW : Z := 100.

(** ** Rating *)

Definition calculateHitRating (hitTime perfectTime : Z) : HitRating :=
  let timeDiff := Z.abs (hitTime - perfectTime) in
  if timeDiff <=? PERFECT_WINDOW then perfect
  else if timeDiff <=? GREAT_WINDOW then great
  else if timeDiff <=? GOOD_WINDOW then good
  else ok.

(** ** Input resolver *)

(** A JavaScript [Set<string>]: distinct elements in insertion order. *)
Module JsSet.

Definition t := list string.

Definition empty : t := [].

Definition has (s : t) (k : string) : bool := existsb (String.eqb k) s.

Definition add (s : t) (k : string) : t := if has s k then s else s ++ [k].

Definition delete (s : t) (k : string) : t :=
  List.filter (fun k' => negb (String.eqb k k')) s.

Definition size (s : t) : nat := length s.

End JsSet.

Definition ARROW_KEY_MAP : list (string * Z) :=
  [("ArrowUp", 1); ("ArrowDown", 7); ("ArrowLeft", 3); ("ArrowRight", 5)]%string.

(** [ARROW_KEY_MAP.hasOwnProperty(key)] *)
Definition isArrowKey (key : string) : bool :=
  existsb (fun kv => String.eqb key (fst kv)) ARROW_KEY_MAP.

Definition getCellIndexFromKeys (pressedKeys : JsSet.t) : option Z :=
  let hasUp := JsSet.has pressedKeys "ArrowUp" in
  let hasDown := JsSet.has pressedKeys "ArrowDown" in
  let hasLeft := JsSet.has pressedKeys "ArrowLeft" in
  let hasRight := JsSet.has pressedKeys "ArrowRight" in
  if hasUp && hasLeft then Some 0
  else if hasUp && hasRight then Some 2
  else if hasDown && hasLeft then Some 6
  else if hasDown && hasRight then Some 8
  else if hasUp then Some 1
  else if hasDown then Some 7
  else if hasLeft then Some 3
  else if hasRight then Some 5
  else None.

(** ** Scheduler: [spawnFromTrack] *)

(** What the browser supplies to a frame: [window.innerWidth],
    [window.innerHeight] and the cell centres recorded in [cellRefs]
    ([None] when the entry or its position is missing). *)
Record Viewport := mkViewport
  { innerWidth : Q; innerHeight : Q; cellPosition : Z -> option Position }.

Record Session := mkSession
  { cells : list GridCell;
    isPlaying : bool;
    trackStartTime : option Z;
    spawnedIndices : gset nat }.

(** One execution of the body of [if (elapsed >= item.spawnTime - 10)]:
    the index that was added to [spawnedIndicesRef] and the circle handed to
    [setCells], if the cell index passed validation. *)
Record Fired := mkFired
  { firedIndex : nat; firedItem : TrackItem; firedCircle : option Circle }.

Definition emptyCells : list GridCell :=
  List.map (fun i => mkGridCell i []) [0; 1; 2; 3; 4; 5; 6; 7; 8].

Definition initialSession : Session :=
  mkSession emptyCells false None ∅.

Definition startTrack (now : Z) (s : Session) : Session :=
  mkSession emptyCells true (Some now) ∅.

Definition newCircle (vp : Viewport) (now : Z) (index : nat) (item : TrackItem)
  : Circle :=
  let spawnPos := mkPosition (innerWidth vp / 2)%Q 0%Q in
  let targetPos :=
    match cellPosition vp (itemCellIndex item) with
    | Some p => p
    | None => mkPosition (innerWidth vp / 2)%Q (innerHeight vp / 2)%Q
    end in
  {| id := mkCircleId (itemCellIndex item) (spawnTime item) index;
     size := 0%Q;
     startTime := now;
     duration := GROWTH_DURATION;
     hitStatus := None;
     hitTime := None;
     hitRating := None;
     hitWindowStart := now + GROWTH_DURATION - HIT_WINDOW_START;
     hitWindowEnd := now + GROWTH_DURATION + HIT_WINDOW_DURATION;
     perfectTime := now + GROWTH_DURATION;
     cellIndex := itemCellIndex item;
     spawnPosition := spawnPos;
     targetPosition := targetPos;
     currentPosition := spawnPos |}.

(** The updater passed to [setCells] when an item spawns. *)
Definition insertCircle (c : Circle) (prev : list GridCell) : list GridCell :=
  List.map (fun cell =>
              if index cell =? cellIndex c
              then mkGridCell (index cell) (circles cell ++ [c])
              else cell) prev.

Definition invalidCellIndex (ci : Z) : bool :=
  (ci =? CENTER_INDEX) || (ci <? 0) || (GRID_SIZE * GRID_SIZE <=? ci).

(** State threaded through [track.forEach]: the fired set, the grid and the
    log of body executions (the log is an observation, the code keeps none). *)
Record SpawnState := mkSpawnState
  { sp_spawned : gset nat; sp_cells : list GridCell; sp_log : list Fired }.

(** The callback of [track.forEach((item, index) => ...)]. *)
Definition spawnItem (vp : Viewport) (now elapsed : Z)
    (st : SpawnState) (index : nat) (item : TrackItem) : SpawnState :=
  if bool_decide (index ∈ sp_spawned st) then st
  else if spawnTime item - 10 <=? elapsed then
    let spawned' := {[index]} ∪ sp_spawned st in
    if invalidCellIndex (itemCellIndex item) then
      mkSpawnState spawned' (sp_cells st)
                   (sp_log st ++ [mkFired index item None])
    else
      let c := newCircle vp now index item in
      mkSpawnState spawned' (insertCircle c (sp_cells st))
                   (sp_log st ++ [mkFired index item (Some c)])
  else st.

(** [items.forEach(f)] where the first element of [items] has index [i]. *)
Fixpoint forEachFrom {S : Type} (f : S -> nat -> TrackItem -> S)
    (i : nat) (items : list TrackItem) (st : S) : S :=
  match items with
  | [] => st
  | item :: rest => forEachFrom f (Datatypes.S i) rest (f st i item)
  end.

Definition spawnFromTrack (vp : Viewport) (track : Track) (now : Z)
    (s : Session) : Session * list Fired :=
  if negb (isPlaying s) then (s, [])
  else match trackStartTime s with
       | None => (s, [])
       | Some start =>
           let elapsed := now - start in
           let st := forEachFrom (spawnItem vp now elapsed) 0%nat track
                       (mkSpawnState (spawnedIndices s) (cells s) []) in
           (mkSession (sp_cells st) (isPlaying s) (trackStartTime s)
                      (sp_spawned st),
            sp_log st)
       end.

(** ** Target lifecycle: the updater of [animate] *)

Definition growth (now : Z) (c : Circle) : Q :=
  Qmin (inject_Z (now - startTime c) / inject_Z (duration c)) 1.

Definition advanceCircle (now : Z) (circle : Circle) : Circle :=
  match hitStatus circle with
  | Some _ =>
      {| id := id circle; size := size circle; startTime := startTime circle;
         duration := duration circle; hitStatus := hitStatus circle;
         hitTime := hitTime circle; hitRating := hitRating circle;
         hitWindowStart := hitWindowStart circle;
         hitWindowEnd := hitWindowEnd circle;
         perfectTime := perfectTime circle; cellIndex := cellIndex circle;
         spawnPosition := spawnPosition circle;
         targetPosition := targetPosition circle;
         currentPosition := targetPosition circle |}
  | None =>
      let missBuffer := 50 in
      if hitWindowEnd circle + missBuffer <? now then
        {| id := id circle; size := size circle; startTime := startTime circle;
           duration := duration circle; hitStatus := Some miss;
           hitTime := Some now; hitRating := hitRating circle;
           hitWindowStart := hitWindowStart circle;
           hitWindowEnd := hitWindowEnd circle;
           perfectTime := perfectTime circle; cellIndex := cellIndex circle;
           spawnPosition := spawnPosition circle;
           targetPosition := targetPosition circle;
           currentPosition := currentPosition circle |}
      else
        let progress := growth now circle in
        let sp := spawnPosition circle in
        let tp := targetPosition circle in
        let cur :=
          mkPosition (pos_x sp + (pos_x tp - pos_x sp) * progress)%Q
                     (pos_y sp + (pos_y tp - pos_y sp) * progress)%Q in
        {| id := id circle; size := progress; startTime := startTime circle;
           duration := duration circle; hitStatus := hitStatus circle;
           hitTime := hitTime circle; hitRating := hitRating circle;
           hitWindowStart := hitWindowStart circle;
           hitWindowEnd := hitWindowEnd circle;
           perfectTime := perfectTime circle; cellIndex := cellIndex circle;
           spawnPosition := spawnPosition circle;
           targetPosition := targetPosition circle;
           currentPosition := cur |}
  end.

(** The predicate of the [.filter] that follows: [true] keeps the circle. *)
Definition keepCircle (now : Z) (circle : Circle) : bool :=
  match hitTime circle with
  | Some t => now - t <? HIT_FEEDBACK_DURATION
  | None => Qle_bool (size circle) (11 # 10)
  end.

Definition animateCell (now : Z) (cell : GridCell) : GridCell :=
  mkGridCell (index cell)
    (List.filter (keepCircle now) (List.map (advanceCircle now) (circles cell))).

(** [animate]: [spawnFromTrack] reads the clock, then the updater reads it
    again. *)
Definition animate (vp : Viewport) (track : Track) (nowSpawn now : Z)
    (s : Session) : Session * list Fired :=
  let '(s1, log) := spawnFromTrack vp track nowSpawn s in
  (mkSession (List.map (animateCell now) (cells s1)) (isPlaying s1)
             (trackStartTime s1) (spawnedIndices s1),
   log).

(** ** Judgment: [handleCellPress] *)

(** [Array.prototype.sort(compare)] is stable: elements that compare equal
    keep their order.  [a] is placed before [b] when [compare a b <= 0] and
    [a] came first. *)
Fixpoint sortInsert {A : Type} (compare : A -> A -> Q) (a : A) (l : list A)
  : list A :=
  match l with
  | [] => [a]
  | b :: rest =>
      if Qle_bool (compare a b) 0 then a :: b :: rest
      else b :: sortInsert compare a rest
  end.

Fixpoint jsSort {A : Type} (compare : A -> A -> Q) (l : list A) : list A :=
  match l with
  | [] => []
  | a :: rest => sortInsert compare a (jsSort compare rest)
  end.

(** [{ ...circle, hitStatus: 'correct', hitTime: now, hitRating: rating,
       size: hitCircle.currentSize, currentPosition: hitCircle.targetPosition }] *)
Definition markHit (now : Z) (rating : HitRating) (hitSize : Q)
    (hitTarget : Position) (circle : Circle) : Circle :=
  {| id := id circle; size := hitSize; startTime := startTime circle;
     duration := duration circle; hitStatus := Some correct;
     hitTime := Some now; hitRating := Some rating;
     hitWindowStart := hitWindowStart circle;
     hitWindowEnd := hitWindowEnd circle;
     perfectTime := perfectTime circle; cellIndex := cellIndex circle;
     spawnPosition := spawnPosition circle;
     targetPosition := targetPosition circle;
     currentPosition := hitTarget |}.

Definition isUnhit (now : Z) (circle : Circle) : bool :=
  match hitStatus circle with
  | Some _ => false
  | None => now <=? hitWindowEnd circle
  end.

Definition inWindow (now : Z) (circle : Circle) : bool :=
  (hitWindowStart circle <=? now) && (now <=? hitWindowEnd circle).

(** The body of the updater for the cell whose index matches. *)
Definition pressCell (now : Z) (cell : GridCell) : GridCell :=
  let unhitCircles := List.filter (isUnhit now) (circles cell) in
  if (length unhitCircles =? 0)%nat then cell
  else
    let circlesWithCurrentSize :=
      List.map (fun circle => (circle, growth now circle)) unhitCircles in
    let circlesInWindow :=
      List.filter (fun cs => inWindow now (fst cs)) circlesWithCurrentSize in
    if (0 <? length circlesInWindow)%nat then
      let sortedCircles :=
        jsSort (fun a b => (snd b - snd a)%Q) circlesInWindow in
      match sortedCircles with
      | (hitCircle, currentSize) :: _ =>
          let rating := calculateHitRating now (perfectTime hitCircle) in
          mkGridCell (index cell)
            (List.map (fun circle =>
                         if bool_decide (id circle = id hitCircle)
                         then markHit now rating currentSize
                                      (targetPosition hitCircle) circle
                         else circle)
                      (circles cell))
      | [] => cell
      end
    else cell.

(** The local [sortedCircles] of [pressCell] as a function of the cell: the
    candidates of a press, biggest first. *)
Definition sortedCircles (now : Z) (cell : GridCell) : list (Circle * Q) :=
  let unhitCircles := List.filter (isUnhit now) (circles cell) in
  let circlesWithCurrentSize :=
    List.map (fun circle => (circle, growth now circle)) unhitCircles in
  let circlesInWindow :=
    List.filter (fun cs => inWindow now (fst cs)) circlesWithCurrentSize in
  jsSort (fun a b => (snd b - snd a)%Q) circlesInWindow.

Definition handleCellPress (cellIndex : Z) (now : Z) (prev : list GridCell)
  : list GridCell :=
  List.map (fun cell =>
              if negb (index cell =? cellIndex) then cell
              else pressCell now cell) prev.

(** ** Completion check *)

(** [Math.max(...track.map((item) => item.spawnTime))] on a non-empty track. *)
Definition lastSpawnTime (first : TrackItem) (rest : list TrackItem) : Z :=
  fold_left Z.max (List.map spawnTime rest) (spawnTime first).

(** The callback of the 100 ms interval; the effect installs the interval
    only while [isPlaying] holds and the start time is set. *)
Definition checkTrackFinished (track : Track) (now : Z) (s : Session)
  : Session :=
  if negb (isPlaying s) then s
  else match trackStartTime s with
       | None => s
       | Some start =>
           let elapsed := now - start in
           match track with
           | [] => mkSession (cells s) false None ∅
           | first :: rest =>
               let trackEndTime :=
                 lastSpawnTime first rest + GROWTH_DURATION
                 + HIT_WINDOW_DURATION + HIT_FEEDBACK_DURATION in
               if trackEndTime <? elapsed
               then mkSession (cells s) false None ∅
               else s
           end
       end.

(** ** Keyboard handlers *)

Fixpoint insertKey (k : string) (l : list string) : list string :=
  match l with
  | [] => [k]
  | k' :: rest =>
      if String.leb k k' then k :: k' :: rest else k' :: insertKey k rest
  end.

(** [Array.from(keys).sort()]: the default order on strings. *)
Definition sortKeys (keys : JsSet.t) : list string :=
  fold_right insertKey [] keys.

(** [Array.from(keys).sort().join(',')] *)
Definition keySignature (keys : JsSet.t) : string :=
  String.concat "," (sortKeys keys).

Record KeyState := mkKeyState
  { pressedKeys : JsSet.t; lastTriggeredKeys : JsSet.t }.

Definition initialKeys : KeyState := mkKeyState JsSet.empty JsSet.empty.

(** Returns the new state and the argument of the [handleCellPress] call,
    if one is made. *)
Definition handleKeyDown (key : string) (ks : KeyState)
  : KeyState * option Z :=
  if negb (isArrowKey key) then (ks, None)
  else
    let pressed := JsSet.add (pressedKeys ks) key in
    match getCellIndexFromKeys pressed with
    | Some targetIndex =>
        let currentKeys := keySignature pressed in
        let lastKeys := keySignature (lastTriggeredKeys ks) in
        if negb (String.eqb currentKeys lastKeys)
        then (mkKeyState pressed pressed, Some targetIndex)
        else (mkKeyState pressed (lastTriggeredKeys ks), None)
    | None => (mkKeyState pressed (lastTriggeredKeys ks), None)
    end.

Definition handleKeyUp (key : string) (ks : KeyState) : KeyState :=
  if negb (isArrowKey key) then ks
  else
    let pressed := JsSet.delete (pressedKeys ks) key in
    if (JsSet.size pressed =? 0)%nat then mkKeyState pressed JsSet.empty
    else
      let currentKeys := keySignature pressed in
      let lastKeys := keySignature (lastTriggeredKeys ks) in
      if negb (String.eqb currentKeys lastKeys)
      then mkKeyState pressed pressed
      else mkKeyState pressed (lastTriggeredKeys ks).

Inductive KeyEvent := KeyDown (key : string) | KeyUp (key : string).

Definition handleKey (e : KeyEvent) (ks : KeyState) : KeyState * option Z :=
  match e with
  | KeyDown key => handleKeyDown key ks
  | KeyUp key => (handleKeyUp key ks, None)
  end.

(** The presses made while a sequence of key events is handled. *)
Fixpoint handleKeys (events : list KeyEvent) (ks : KeyState)
  : KeyState * list Z :=
  match events with
  | [] => (ks, [])
  | e :: rest =>
      let '(ks1, press) := handleKey e ks in
      let '(ks2, presses) := handleKeys rest ks1 in
      (ks2, match press with Some i => i :: presses | None => presses end)
  end.

(** ** The session as a transition system *)

(** What can happen to a session: the Start button, one [animate] frame
    (two clock readings, the first inside [spawnFromTrack]), a tap or a
    keyboard press resolved to a cell, and one tick of the completion
    interval. *)
Inductive Input :=
| StartTrack (now : Z)
| AnimationFrame (vp : Viewport) (nowSpawn now : Z)
| CellPress (cellIndex now : Z)
| CheckFinished (now : Z).

Definition clockIn (i : Input) : Z :=
  match i with
  | StartTrack now | CellPress _ now | CheckFinished now => now
  | AnimationFrame _ nowSpawn _ => nowSpawn
  end.

Definition clockOut (i : Input) : Z :=
  match i with
  | StartTrack now | CellPress _ now | CheckFinished now => now
  | AnimationFrame _ _ now => now
  end.

(** One transition.  The second component is the log of the scheduler for
    the current run: it starts empty at [startTrack]. *)
Definition step (track : Track) (i : Input) (s : Session) (log : list Fired)
  : Session * list Fired :=
  match i with
  | StartTrack now => (startTrack now s, [])
  | AnimationFrame vp nowSpawn now =>
      let '(s', fired) := animate vp track nowSpawn now s in
      (s', log ++ fired)
  | CellPress cellIndex now =>
      (mkSession (handleCellPress cellIndex now (cells s)) (isPlaying s)
                 (trackStartTime s) (spawnedIndices s),
       log)
  | CheckFinished now => (checkTrackFinished track now s, log)
  end.

(** States reachable under a clock that never runs backwards; the first
    index is the last clock reading. *)
Inductive Reachable (track : Track) : Z -> Session -> list Fired -> Prop :=
| Reachable_init (t : Z) : Reachable track t initialSession []
| Reachable_step (t : Z) (s : Session) (log : list Fired) (i : Input) :
    Reachable track t s log ->
    t <= clockIn i -> clockIn i <= clockOut i ->
    Reachable track (clockOut i)
              (fst (step track i s log)) (snd (step track i s log)).

(** Running a list of inputs, for concrete scenarios. *)
Fixpoint run (track : Track) (inputs : list Input) (s : Session)
    (log : list Fired) : Session * list Fired :=
  match inputs with
  | [] => (s, log)
  | i :: rest =>
      let '(s', log') := step track i s log in run track rest s' log'
  end.

Fixpoint clockOk (t : Z) (inputs : list Input) : bool :=
  match inputs with
  | [] => true
  | i :: rest =>
      (t <=? clockIn i) && (clockIn i <=? clockOut i)
      && clockOk (clockOut i) rest
  end.

Definition lastClock (t : Z) (inputs : list Input) : Z :=
  fold_left (fun _ i => clockOut i) inputs t.

(** ** Auxiliary notions for the keyboard handlers *)

(** The key states the handlers can produce from the initial one. *)
Inductive KeysReachable : KeyState -> Prop :=
| KeysReachable_init : KeysReachable initialKeys
| KeysReachable_step (ks : KeyState) (e : KeyEvent) :
    KeysReachable ks -> KeysReachable (fst (handleKey e ks)).

(** A held-key set as the handlers build it: distinct arrow keys. *)
Definition arrowSet (s : JsSet.t) : Prop :=
  List.NoDup s /\ Forall (fun k => isArrowKey k = true) s.

(** The held arrow keys in the order [sort()] gives them. *)
Definition canonicalKeys (s : JsSet.t) : list string :=
  List.filter (JsSet.has s)
              ["ArrowDown"; "ArrowLeft"; "ArrowRight"; "ArrowUp"]%string.

(** The record as the specification words it, next to the handlers: the
    signature recorded at the last fired press, cleared by a release that
    empties the held set and changed by nothing else.  For every press the
    handlers fire, the result lists the cell, the signature of the held set
    at that press, and this record just before it. *)
Fixpoint pressesAgainstSpecRecord (events : list KeyEvent) (ks : KeyState)
    (recorded : string) : list (Z * string * string) :=
  match events with
  | [] => []
  | e :: rest =>
      let '(ks', press) := handleKey e ks in
      let current := keySignature (pressedKeys ks') in
      match press with
      | Some cell =>
          (cell, current, recorded)
            :: pressesAgainstSpecRecord rest ks' current
      | None =>
          let recorded' :=
            match e with
            | KeyUp _ =>
                if (JsSet.size (pressedKeys ks') =? 0)%nat then EmptyString
                else recorded
            | KeyDown _ => recorded
            end in
          pressesAgainstSpecRecord rest ks' recorded'
      end
  end.

(** What holds of every reachable key state: the held keys are distinct
    arrow keys and the recorded set is the held set. *)
Definition keysInvariant (ks : KeyState) : Prop :=
  arrowSet (pressedKeys ks) /\ lastTriggeredKeys ks = pressedKeys ks.

(** ** Auxiliary notions for the session *)

Definition gridIndexes : list Z := [0; 1; 2; 3; 4; 5; 6; 7; 8].

(** The ids of the circles the scheduler has handed to [setCells]. *)
Definition createdIds (log : list Fired) : list CircleId :=
  flat_map (fun f => match firedCircle f with
                     | Some c => [id c]
                     | None => []
                     end) log.

Definition firedSpawnTimes (log : list Fired) : list Z :=
  List.map (fun f => spawnTime (firedItem f)) log.

(** A circle as the program keeps it at clock reading [t]. *)
Record circleOk (t : Z) (c : Circle) : Prop := mkCircleOk
  { ok_duration : duration c = GROWTH_DURATION;
    ok_started : startTime c <= t;
    ok_windowStart :
      hitWindowStart c = startTime c + GROWTH_DURATION - HIT_WINDOW_START;
    ok_windowEnd :
      hitWindowEnd c = startTime c + GROWTH_DURATION + HIT_WINDOW_DURATION;
    ok_perfect : perfectTime c = startTime c + GROWTH_DURATION;
    ok_size : (0 <= size c)%Q /\ (size c <= 1)%Q;
    ok_resolved : hitStatus c = None <-> hitTime c = None;
    ok_cell : cellIndex c = id_cellIndex (id c) }.

(** The circles of one cell: distinct ids, each created by a logged firing. *)
Record circlesOk (t : Z) (log : list Fired) (l : list Circle) : Prop :=
  mkCirclesOk
  { ok_ids : List.NoDup (List.map id l);
    ok_each : Forall (circleOk t) l;
    ok_created : Forall (fun c => In (id c) (createdIds log)) l }.

(** A log entry records item [firedIndex] of the track, and a circle exactly
    when the cell index of the item is valid. *)
Definition firedOk (track : Track) (f : Fired) : Prop :=
  nth_error track (firedIndex f) = Some (firedItem f)
  /\ match firedCircle f with
     | None => invalidCellIndex (itemCellIndex (firedItem f)) = true
     | Some c =>
         invalidCellIndex (itemCellIndex (firedItem f)) = false
         /\ id c = mkCircleId (itemCellIndex (firedItem f))
                              (spawnTime (firedItem f)) (firedIndex f)
     end.

Record gridOk (t : Z) (track : Track) (grid : list GridCell)
    (log : list Fired) : Prop := mkGridOk
  { ok_indexes : List.map index grid = gridIndexes;
    ok_cells : Forall (fun cell => circlesOk t log (circles cell)) grid;
    ok_once : List.NoDup (List.map firedIndex log);
    ok_fired : Forall (firedOk track) log }.

(** What holds of every reachable session; the fired set covers the log
    while a run is in progress. *)
Definition sessionOk (t : Z) (track : Track) (s : Session) (log : list Fired)
  : Prop :=
  gridOk t track (cells s) log
  /\ (trackStartTime s <> None ->
      Forall (fun f => firedIndex f ∈ spawnedIndices s) log).

(** The fields that make up the logical state of a circle. *)
Definition logicalState (c : Circle)
  : Q * option HitStatus * option Z * option HitRating :=
  (size c, hitStatus c, hitTime c, hitRating c).

(** A circle a press at [now] may resolve. *)
Definition eligible (now : Z) (c : Circle) : Prop :=
  hitStatus c = None /\ hitWindowStart c <= now <= hitWindowEnd c.

(** The invariant of the [forEach] loop of [spawnFromTrack]; [log0] is the
    log of the run before this frame. *)
Definition spawnStateOk (now : Z) (track : Track) (log0 : list Fired)
    (st : SpawnState) : Prop :=
  gridOk now track (sp_cells st) (log0 ++ sp_log st)
  /\ Forall (fun f => firedIndex f ∈ sp_spawned st) (log0 ++ sp_log st).

(** No logged event is later than an event of the track that has not fired. *)
Definition firedBeforeUnfired (track : Track) (spawned : gset nat)
    (log : list Fired) : Prop :=
  forall f k item,
    In f log -> nth_error track k = Some item -> k ∉ spawned ->
    spawnTime (firedItem f) <= spawnTime item.

(** The order invariant of a session on a sorted track. *)
Definition orderOk (track : Track) (s : Session) (log : list Fired) : Prop :=
  StronglySorted Z.le (firedSpawnTimes log)
  /\ (trackStartTime s <> None ->
      firedBeforeUnfired track (spawnedIndices s) log).

(** The same inside the loop of [spawnFromTrack], after the items before
    index [i]: those that have not fired are not due yet. *)
Definition spawnOrderOk (track : Track) (elapsed : Z) (log0 : list Fired)
    (i : nat) (st : SpawnState) : Prop :=
  StronglySorted Z.le (firedSpawnTimes (log0 ++ sp_log st))
  /\ firedBeforeUnfired track (sp_spawned st) (log0 ++ sp_log st)
  /\ (forall k item,
         (k < i)%nat -> nth_error track k = Some item ->
         k ∉ sp_spawned st -> elapsed < spawnTime item - 10).


Definition sampleViewport : Viewport :=
  mkViewport 800 600 (fun _ => None).

(** [cell'] holds the circles of [cell] followed by newly spawned ones. *)
Definition extends (cell cell' : GridCell) : Prop :=
  index cell' = index cell
  /\ exists spawned, circles cell' = circles cell ++ spawned.

(** The end-to-end scenario: one event for cell 3 at offset 0, the track
    started at time 0, and a frame every [period] ms up to time [upTo]. *)
Definition singleEventTrack : Track := [mkTrackItem 3 0].

Definition framesEvery (period upTo : Z) : list Input :=
  List.map (fun k => AnimationFrame sampleViewport (Z.of_nat k * period)
                                    (Z.of_nat k * period))
           (seq 0 (Datatypes.S (Z.to_nat (upTo / period)))).

Definition singleEventRun (period upTo : Z) : Session :=
  fst (run singleEventTrack (StartTrack 0 :: framesEvery period upTo)
           initialSession []).

(** The resolution of every circle in cell [ci] of a session. *)
Definition resolutionsAt (ci : Z) (s : Session)
  : list (option HitStatus * option Z * option HitRating) :=
  flat_map (fun cell =>
              if index cell =? ci
              then List.map (fun c => (hitStatus c, hitTime c, hitRating c))
                            (circles cell)
              else []) (cells s).

(** ** Concrete sessions *)

(** Two circles that overlap in cell 3 (spawned at 0 and at 100) and an
    event for the centre cell; the last frame is at 950, then cell 3 is
    pressed at 960. *)
Definition overlapTrack : Track :=
  [mkTrackItem 3 0; mkTrackItem 3 100; mkTrackItem 4 200].

Definition overlapInputs : list Input :=
  [StartTrack 0;
   AnimationFrame sampleViewport 0 0;
   AnimationFrame sampleViewport 100 100;
   AnimationFrame sampleViewport 200 200;
   AnimationFrame sampleViewport 950 950].

Definition overlapSession : Session :=
  fst (run overlapTrack overlapInputs initialSession []).

Definition overlapLog : list Fired :=
  snd (run overlapTrack overlapInputs initialSession []).

Definition pressedSession : Session :=
  fst (run overlapTrack (overlapInputs ++ [CellPress 3 960])
           initialSession []).

Definition pressedLog : list Fired :=
  snd (run overlapTrack (overlapInputs ++ [CellPress 3 960])
           initialSession []).

Definition sampleCircle : Circle :=
  newCircle sampleViewport 0 0 (mkTrackItem 0 0).

Definition cellAt (k : nat) (s : Session) : GridCell :=
  nth k (cells s) (mkGridCell 0 []).

Definition firstCircle (cell : GridCell) : Circle :=
  hd sampleCircle (circles cell).

(** With a frame every [period] ms from time 0, the first frame later than
    [bound]. *)
Definition firstFrameAfter (bound period : Z) : Z :=
  (bound / period + 1) * period.

(** ** Auxiliary notions for the further properties *)

(** Whether item [k] of the track is due at [elapsed]: the test
    [elapsed >= item.spawnTime - 10]; [false] beyond the end of the track. *)
Definition dueAt (track : Track) (elapsed : Z) (k : nat) : bool :=
  match nth_error track k with
  | Some item => spawnTime item - 10 <=? elapsed
  | None => false
  end.

(** The session [checkTrackFinished] leaves when it ends the run. *)
Definition stopped (s : Session) : Session :=
  mkSession (cells s) false None ∅.

(** Whether the last event about [key] in [events] is a key-down. *)
Definition heldAfter (events : list KeyEvent) (key : string) (held : bool)
  : bool :=
  fold_left (fun h e =>
               match e with
               | KeyDown k => if String.eqb key k then true else h
               | KeyUp k => if String.eqb key k then false else h
               end) events held.

(** The invariant of the [forEach] loop that pins down what a frame fires:
    [spawned0] is the fired set when the loop starts. *)
Definition spawnExactOk (track : Track) (elapsed : Z) (spawned0 : gset nat)
    (i : nat) (st : SpawnState) : Prop :=
  (forall k, k ∈ sp_spawned st
             <-> k ∈ spawned0 \/ ((k < i)%nat /\ dueAt track elapsed k = true))
  /\ List.map firedIndex (sp_log st)
     = List.filter (fun k => negb (bool_decide (k ∈ spawned0))
                             && dueAt track elapsed k) (seq 0 i)
  /\ Forall (fun f => nth_error track (firedIndex f) = Some (firedItem f))
            (sp_log st).

(** [cell'] has the index of [cell] and no circle that [cell] does not
    have. *)
Definition shrinks (cell cell' : GridCell) : Prop :=
  index cell' = index cell
  /\ incl (List.map id (circles cell')) (List.map id (circles cell)).

(** The resolution record of a circle at clock reading [t]. *)
Definition recordOk (t : Z) (c : Circle) : Prop :=
  match hitStatus c with
  | None => hitRating c = None
  | Some miss =>
      hitRating c = None
      /\ exists th, hitTime c = Some th /\ hitWindowEnd c + 50 < th /\ th <= t
  | Some correct =>
      exists th,
        hitTime c = Some th
        /\ hitWindowStart c <= th <= hitWindowEnd c
        /\ th <= t
        /\ hitRating c = Some (calculateHitRating th (perfectTime c))
        /\ size c = growth th c
        /\ currentPosition c = targetPosition c
  | Some incorrect => False
  end.

(** Every circle of the cell has a proper record and carries the index of
    the cell. *)
Definition cellRecordOk (t : Z) (cell : GridCell) : Prop :=
  Forall (fun c => recordOk t c /\ cellIndex c = index cell) (circles cell).

(** The fields of a circle that no transition changes. *)
Definition identity (c : Circle)
  : CircleId * Z * Z * Z * Z * Z * Z * Position * Position :=
  (id c, startTime c, duration c, hitWindowStart c, hitWindowEnd c,
   perfectTime c, cellIndex c, spawnPosition c, targetPosition c).

(** The number of circles of the cell a press at [now] may resolve. *)
Definition eligibleCount (now : Z) (cell : GridCell) : nat :=
  length (List.filter (fun c => isUnhit now c && inWindow now c)
                      (circles cell)).

(** ** Rendering of a circle *)

(** [bgColor] of the circle element. *)
Definition circleColor (circle : Circle) : string :=
  match hitStatus circle, hitRating circle with
  | Some correct, Some rating =>
      match rating with
      | perfect => "#fbbf24"
      | great => "#22c55e"
      | good => "#3b82f6"
      | ok => "#10b981"
      end
  | Some incorrect, _ | Some miss, _ => "#ef4444"
  | _, _ => "#d93900"
  end.

(** Whether the rating label is rendered:
    [circle.hitStatus === 'correct' && circle.hitRating]. *)
Definition showsRating (circle : Circle) : bool :=
  match hitStatus circle, hitRating circle with
  | Some correct, Some _ => true
  | _, _ => false
  end.

(** [radius]: half the smaller side of the cell element, or 50 when the
    element is missing, scaled by the size of the circle.  [cellSize] is
    the width and height of the bounding rectangle of the element. *)
Definition circleRadius (cellSize : option (Q * Q)) (circle : Circle) : Q :=
  let baseRadius :=
    match cellSize with
    | Some (width, height) => (Qmin width height / 2)%Q
    | None => 50%Q
    end in
  (baseRadius * size circle)%Q.

(** ** The sample track *)

(** A track item while the track is built: the spawn time is a JS number.
    The numbers of [generateSampleTrack] are kept as exact rationals; every
    one of them is an integer below 2^53, and the products [600 * 1.5] and
    [600 * 0.8] are exact in double precision, so no rounding is lost. *)
Record RawItem := mkRawItem { rawCellIndex : Z; rawSpawnTime : Q }.

Definition bpm : Q := 100.
Definition beatDuration : Q := (60 / bpm) * 1000.
Definition allCells : list Z := [0; 1; 2; 3; 5; 6; 7; 8].
Definition timeBetweenHits : Q := beatDuration * (3 # 2).
Definition corners : list Z := [0; 2; 6; 8].
Definition directions : list Z := [1; 3; 5; 7].
Definition finalPattern : list Z :=
  [0; 1; 2; 3; 5; 6; 7; 8; 0; 2; 6; 8; 1; 3; 5; 7].

(** One [for] loop of [generateSampleTrack] over the pair of [track] and
    [currentTime]: each cell is pushed at the current time, which then
    advances by [gap].  The clock is kept in lowest terms. *)
Definition pushRound (round : list Z) (gap : Q) (st : list RawItem * Q)
  : list RawItem * Q :=
  fold_left (fun st cellIndex =>
               (fst st ++ [mkRawItem cellIndex (snd st)],
                Qred (snd st + gap)))
            round st.

(** The array before the final [sort].  Round 2 walks [allCells] from its
    last index down, and its [undefined] test never fails. *)
Definition rawSampleTrack : list RawItem :=
  let st := ([], 0%Q) in
  let st := pushRound allCells timeBetweenHits st in
  let st := pushRound (rev allCells) timeBetweenHits st in
  let st := pushRound allCells timeBetweenHits st in
  let st := pushRound corners timeBetweenHits st in
  let st := pushRound directions timeBetweenHits st in
  let st := pushRound allCells (beatDuration * (4 # 5)) st in
  let st := pushRound finalPattern timeBetweenHits st in
  fst st.

Definition toTrackItem (r : RawItem) : TrackItem :=
  mkTrackItem (rawCellIndex r) (Qfloor (rawSpawnTime r)).

Definition generateSampleTrack : Track :=
  List.map toTrackItem
    (jsSort (fun a b => (rawSpawnTime a - rawSpawnTime b)%Q) rawSampleTrack).

(** The number of events of the track for the cell. *)
Definition eventsFor (track : Track) (ci : Z) : nat :=
  length (List.filter (fun item => itemCellIndex item =? ci) track).

(** The start of a run on the sample track: the first frame and a frame
    900 ms later. *)
Definition sampleRunInputs : list Input :=
  [StartTrack 0;
   AnimationFrame sampleViewport 0 0;
   AnimationFrame sampleViewport 900 900].

Definition sampleRunSession : Session :=
  fst (run generateSampleTrack sampleRunInputs initialSession []).

Definition sampleRunLog : list Fired :=
  snd (run generateSampleTrack sampleRunInputs initialSession []).

(** ** Positions *)




(** ** Sample circles *)

(** The cell with the two overlapping circles, before and after the press,
    and its first circle. *)
Definition overlapCell : GridCell := cellAt 3 overlapSession.
Definition overlapCircle : Circle := firstCircle overlapCell.
Definition pressedCell : GridCell := cellAt 3 pressedSession.
Definition pressedCircle : Circle := firstCircle pressedCell.

(** A session at the start of a run, and inputs without a start. *)
Definition startedSession : Session := startTrack 0 initialSession.

Definition idleInputs : list Input :=
  [AnimationFrame sampleViewport 0 0; CellPress 3 5; CheckFinished 10].

(** * Properties *)

(** ** Input resolver *)

Lemma has_app (s : JsSet.t) (k k' : string) :
  JsSet.has (s ++ [k']) k = JsSet.has s k || String.eqb k k'.
Proof.
  unfold JsSet.has. rewrite existsb_app. cbn. now rewrite orb_false_r.
Qed.

(** C5, as the claim states it, fails: with Up and Down held (and neither
    Left nor Right) the resolver selects cell 1, and with Left and Right
    held it selects cell 3. *)
Lemma getCellIndexFromKeys_opposite_keys :
  ~ (getCellIndexFromKeys ["ArrowUp"; "ArrowDown"]%string = None)
  /\ ~ (getCellIndexFromKeys ["ArrowLeft"; "ArrowRight"]%string = None)
  /\ getCellIndexFromKeys ["ArrowUp"; "ArrowDown"]%string = Some 1
  /\ getCellIndexFromKeys ["ArrowLeft"; "ArrowRight"]%string = Some 3.
Proof. repeat split; discriminate. Qed.

(** C5, amended.  The selected cell is a function of which of the four
    arrow keys are held, whatever else is in the set and in whatever order:
    a held corner pair wins (Up+Left 0, Up+Right 2, Down+Left 6,
    Down+Right 8, tried in this order), otherwise the first held key among
    Up (1), Down (7), Left (3), Right (5); so Up+Down selects 1 and
    Left+Right selects 3, and no cell is selected exactly when no arrow key
    is held. *)
Theorem getCellIndexFromKeys_table (keys : JsSet.t) :
  getCellIndexFromKeys keys =
    match JsSet.has keys "ArrowUp", JsSet.has keys "ArrowDown",
          JsSet.has keys "ArrowLeft", JsSet.has keys "ArrowRight" with
    | true, false, false, false => Some 1
    | false, true, false, false => Some 7
    | false, false, true, false => Some 3
    | false, false, false, true => Some 5
    | true, false, true, false => Some 0
    | true, false, false, true => Some 2
    | false, true, true, false => Some 6
    | false, true, false, true => Some 8
    | true, true, false, false => Some 1
    | false, false, true, true => Some 3
    | true, true, true, false => Some 0
    | true, true, false, true => Some 2
    | true, false, true, true => Some 0
    | false, true, true, true => Some 6
    | true, true, true, true => Some 0
    | false, false, false, false => None
    end.
Proof.
  unfold getCellIndexFromKeys.
  destruct (JsSet.has keys "ArrowUp"), (JsSet.has keys "ArrowDown"),
    (JsSet.has keys "ArrowLeft"), (JsSet.has keys "ArrowRight"); reflexivity.
Qed.

Lemma isArrowKey_cases (key : string) :
  isArrowKey key = true ->
  key = "ArrowUp"%string \/ key = "ArrowDown"%string
  \/ key = "ArrowLeft"%string \/ key = "ArrowRight"%string.
Proof.
  unfold isArrowKey, ARROW_KEY_MAP. cbn [existsb fst].
  rewrite !orb_true_iff, !String.eqb_eq. intuition discriminate.
Qed.

Lemma has_true_iff (s : JsSet.t) (k : string) :
  JsSet.has s k = true <-> In k s.
Proof.
  unfold JsSet.has. rewrite existsb_exists. split.
  - intros (k' & Hin & Heq). apply String.eqb_eq in Heq. now subst.
  - intros Hin. exists k. split; [assumption|apply String.eqb_refl].
Qed.

Lemma has_false_iff (s : JsSet.t) (k : string) :
  JsSet.has s k = false <-> ~ In k s.
Proof.
  rewrite <- has_true_iff. destruct (JsSet.has s k); split; congruence.
Qed.

Lemma has_cons (s : JsSet.t) (k k' : string) :
  JsSet.has (k' :: s) k = String.eqb k k' || JsSet.has s k.
Proof. reflexivity. Qed.

Lemma arrowSet_cons (k : string) (s : JsSet.t) :
  arrowSet (k :: s) ->
  isArrowKey k = true /\ JsSet.has s k = false /\ arrowSet s.
Proof.
  intros [Hnd Hall]. inversion Hnd; inversion Hall; subst.
  repeat split; try assumption. now apply has_false_iff.
Qed.

Lemma sortKeys_canonical (s : JsSet.t) :
  arrowSet s -> sortKeys s = canonicalKeys s.
Proof.
  induction s as [|k s IH]; [reflexivity|].
  intros Hs. apply arrowSet_cons in Hs as (Hk & Hnot & Hs).
  change (sortKeys (k :: s)) with (insertKey k (sortKeys s)).
  rewrite (IH Hs). unfold canonicalKeys. cbn [List.filter].
  rewrite !has_cons.
  destruct (isArrowKey_cases k Hk) as [-> | [-> | [-> | ->]]]; rewrite Hnot;
    destruct (JsSet.has s "ArrowUp"), (JsSet.has s "ArrowDown"),
      (JsSet.has s "ArrowLeft"), (JsSet.has s "ArrowRight");
    try discriminate; reflexivity.
Qed.

Lemma keySignature_bits (s s' : JsSet.t) :
  arrowSet s -> arrowSet s' -> keySignature s = keySignature s' ->
  forall k, isArrowKey k = true -> JsSet.has s k = JsSet.has s' k.
Proof.
  intros Hs Hs' Hsig k Hk. unfold keySignature in Hsig.
  rewrite (sortKeys_canonical s Hs), (sortKeys_canonical s' Hs') in Hsig.
  unfold canonicalKeys in Hsig. cbn [List.filter] in Hsig.
  destruct (isArrowKey_cases k Hk) as [-> | [-> | [-> | ->]]];
    destruct (JsSet.has s "ArrowUp"), (JsSet.has s "ArrowDown"),
      (JsSet.has s "ArrowLeft"), (JsSet.has s "ArrowRight"),
      (JsSet.has s' "ArrowUp"), (JsSet.has s' "ArrowDown"),
      (JsSet.has s' "ArrowLeft"), (JsSet.has s' "ArrowRight");
    try reflexivity; apply String.eqb_eq in Hsig; discriminate Hsig.
Qed.

Lemma add_held (s : JsSet.t) (k : string) :
  JsSet.has s k = true -> JsSet.add s k = s.
Proof. intros H. unfold JsSet.add. now rewrite H. Qed.

Lemma add_new (s : JsSet.t) (k : string) :
  JsSet.has s k = false -> JsSet.add s k = s ++ [k].
Proof. intros H. unfold JsSet.add. now rewrite H. Qed.

Lemma has_add (s : JsSet.t) (k : string) : JsSet.has (JsSet.add s k) k = true.
Proof.
  unfold JsSet.add. destruct (JsSet.has s k) eqn:H; [assumption|].
  rewrite has_app, String.eqb_refl. apply orb_true_r.
Qed.

Lemma has_delete (s : JsSet.t) (k : string) :
  JsSet.has (JsSet.delete s k) k = false.
Proof.
  apply has_false_iff. unfold JsSet.delete. rewrite filter_In.
  intros [_ H]. now rewrite String.eqb_refl in H.
Qed.

Lemma delete_absent (s : JsSet.t) (k : string) :
  JsSet.has s k = false -> JsSet.delete s k = s.
Proof.
  rewrite has_false_iff. unfold JsSet.delete.
  induction s as [|k' s IH]; [reflexivity|]. intros Hnot. cbn.
  destruct (String.eqb_spec k k') as [->|_].
  - exfalso. apply Hnot. now left.
  - cbn. f_equal. apply IH. intros Hin. apply Hnot. now right.
Qed.

Lemma arrowSet_add (s : JsSet.t) (k : string) :
  arrowSet s -> isArrowKey k = true -> arrowSet (JsSet.add s k).
Proof.
  intros [Hnd Hall] Hk. unfold JsSet.add.
  destruct (JsSet.has s k) eqn:Hhas; [now split|]. split.
  - apply NoDup_ListNoDup, NoDup_app. apply NoDup_ListNoDup in Hnd.
    repeat split; [assumption| |apply NoDup_singleton].
    intros x Hx Hx'. apply list_elem_of_singleton in Hx'. subst x.
    apply has_false_iff in Hhas. apply Hhas. now apply list_elem_of_In.
  - apply Forall_app. split; [assumption|]. now constructor.
Qed.

Lemma arrowSet_delete (s : JsSet.t) (k : string) :
  arrowSet s -> arrowSet (JsSet.delete s k).
Proof.
  intros [Hnd Hall]. unfold JsSet.delete. split.
  - now apply List.NoDup_filter.
  - apply List.Forall_forall. intros x Hx. apply filter_In in Hx as [Hx _].
    rewrite List.Forall_forall in Hall. now apply Hall.
Qed.

Lemma getCellIndexFromKeys_held (s : JsSet.t) (k : string) :
  isArrowKey k = true -> JsSet.has s k = true ->
  exists targetIndex, getCellIndexFromKeys s = Some targetIndex.
Proof.
  intros Hk Hhas. unfold getCellIndexFromKeys.
  destruct (isArrowKey_cases k Hk) as [-> | [-> | [-> | ->]]]; rewrite Hhas;
    destruct (JsSet.has s "ArrowUp"), (JsSet.has s "ArrowDown"),
      (JsSet.has s "ArrowLeft"), (JsSet.has s "ArrowRight");
    try discriminate; eexists; reflexivity.
Qed.

Lemma handleKeyDown_fires_iff (key : string) (ks : KeyState) :
  snd (handleKeyDown key ks) <> None <->
  isArrowKey key = true
  /\ keySignature (JsSet.add (pressedKeys ks) key)
     <> keySignature (lastTriggeredKeys ks).
Proof.
  unfold handleKeyDown. destruct (isArrowKey key) eqn:Hk; cbn [negb].
  2: { cbn. split; [congruence|]. intros [? _]. discriminate. }
  destruct (getCellIndexFromKeys_held _ key Hk (has_add (pressedKeys ks) key))
    as [targetIndex ->].
  destruct (String.eqb_spec (keySignature (JsSet.add (pressedKeys ks) key))
              (keySignature (lastTriggeredKeys ks))) as [Heq|Hne]; cbn.
  - split; [congruence|]. intros [_ H]. contradiction.
  - split; [now split|discriminate].
Qed.

Lemma keysInvariant_step (e : KeyEvent) (ks : KeyState) :
  keysInvariant ks -> keysInvariant (fst (handleKey e ks)).
Proof.
  intros [Hset Hlast]. destruct e as [key|key]; cbn [handleKey fst].
  - unfold handleKeyDown. destruct (isArrowKey key) eqn:Hk; cbn [negb fst].
    2: { now split. }
    pose proof (arrowSet_add _ key Hset Hk) as Hset'.
    destruct (getCellIndexFromKeys_held _ key Hk
                (has_add (pressedKeys ks) key)) as [targetIndex ->].
    destruct (String.eqb_spec (keySignature (JsSet.add (pressedKeys ks) key))
                (keySignature (lastTriggeredKeys ks))) as [Heq|Hne];
      cbn [negb fst pressedKeys lastTriggeredKeys]; split; trivial.
    rewrite Hlast in *.
    pose proof (keySignature_bits _ _ Hset' Hset Heq key Hk) as Hbits.
    rewrite has_add in Hbits. symmetry. now apply add_held.
  - unfold handleKeyUp. destruct (isArrowKey key) eqn:Hk; cbn [negb].
    2: { now split. }
    pose proof (arrowSet_delete _ key Hset) as Hset'.
    destruct (JsSet.size (JsSet.delete (pressedKeys ks) key) =? 0)%nat eqn:Hsz.
    { cbn. split; [assumption|]. apply Nat.eqb_eq in Hsz.
      unfold JsSet.size in Hsz. symmetry. now apply length_zero_iff_nil. }
    destruct (String.eqb_spec
                (keySignature (JsSet.delete (pressedKeys ks) key))
                (keySignature (lastTriggeredKeys ks))) as [Heq|Hne];
      cbn [negb fst pressedKeys lastTriggeredKeys]; split; trivial.
    rewrite Hlast in *.
    pose proof (keySignature_bits _ _ Hset' Hset Heq key Hk) as Hbits.
    rewrite has_delete in Hbits. symmetry. now apply delete_absent.
Qed.

Lemma KeysReachable_invariant (ks : KeyState) :
  KeysReachable ks -> keysInvariant ks.
Proof.
  induction 1 as [|ks e _ IH].
  - split; [split; constructor|reflexivity].
  - now apply keysInvariant_step.
Qed.

Lemma arrowSet_has_other (s : JsSet.t) (k : string) :
  arrowSet s -> isArrowKey k = false -> JsSet.has s k = false.
Proof.
  intros [_ Hall] Hk. apply has_false_iff. intros Hin.
  rewrite List.Forall_forall in Hall. apply Hall in Hin. congruence.
Qed.

Lemma keySignature_order_independent (s s' : JsSet.t) :
  arrowSet s -> arrowSet s' ->
  (keySignature s = keySignature s'
   <-> forall k, JsSet.has s k = JsSet.has s' k).
Proof.
  intros Hs Hs'. split.
  - intros Hsig k. destruct (isArrowKey k) eqn:Hk.
    + now apply keySignature_bits.
    + now rewrite !arrowSet_has_other.
  - intros Hhas. unfold keySignature.
    rewrite (sortKeys_canonical s Hs), (sortKeys_canonical s' Hs').
    unfold canonicalKeys. cbn [List.filter]. now rewrite !Hhas.
Qed.

Lemma handleKeyDown_reachable (ks : KeyState) (key : string) :
  KeysReachable ks ->
  snd (handleKeyDown key ks)
  = if isArrowKey key && negb (JsSet.has (pressedKeys ks) key)
    then getCellIndexFromKeys (pressedKeys ks ++ [key])
    else None.
Proof.
  intros Hreach. apply KeysReachable_invariant in Hreach as [Hset Hlast].
  unfold handleKeyDown. destruct (isArrowKey key) eqn:Hk; [|reflexivity].
  cbn [negb andb].
  destruct (getCellIndexFromKeys_held _ key Hk (has_add (pressedKeys ks) key))
    as [targetIndex Hidx]. rewrite Hidx, Hlast.
  destruct (JsSet.has (pressedKeys ks) key) eqn:Hheld; cbn [negb].
  - rewrite (add_held _ _ Hheld), String.eqb_refl. reflexivity.
  - destruct (String.eqb_spec (keySignature (JsSet.add (pressedKeys ks) key))
                (keySignature (pressedKeys ks))) as [Heq|Hne]; cbn.
    + pose proof (keySignature_bits _ _ (arrowSet_add _ key Hset Hk) Hset
                    Heq key Hk) as Hbits.
      rewrite has_add in Hbits. congruence.
    + rewrite <- Hidx. now rewrite (add_new _ _ Hheld).
Qed.

(** C7, as the claim states it, fails.  With Up held, Left is pressed,
    released and pressed again: the last press fires for cell 0 although the
    held set has the signature it had at the previous fired press. *)
Lemma repress_after_partial_release :
  snd (handleKeys [KeyDown "ArrowUp"; KeyDown "ArrowLeft";
                   KeyUp "ArrowLeft"; KeyDown "ArrowLeft"] initialKeys)
  = [1; 0; 0]
  /\ ~ Forall (fun p => snd (fst p) <> snd p)
         (pressesAgainstSpecRecord
            [KeyDown "ArrowUp"; KeyDown "ArrowLeft";
             KeyUp "ArrowLeft"; KeyDown "ArrowLeft"] initialKeys EmptyString).
Proof.
  split; [reflexivity|]. intros H.
  rewrite List.Forall_forall in H.
  apply (H (0, "ArrowLeft,ArrowUp", "ArrowLeft,ArrowUp")%string);
    [|reflexivity].
  vm_compute. tauto.
Qed.

(** C7, amended.  A key-down fires a press exactly when the key is an arrow
    key and the order-independent signature of the held set differs from the
    recorded one.  The record is the held set of the last fired press, it is
    cleared by a release that empties the held set, and a release that
    leaves keys held replaces it by the keys that remain.  Hence, in every
    key state the handlers can reach, a key-down fires exactly when its
    arrow key was not held before, for the cell of the new held set, and a
    repeated key-down of a held key fires nothing.  Holding Up fires one
    press for cell 1, adding Left one press for cell 0 (two in total, also
    under auto-repeat), and after releasing both keys Up fires cell 1
    again. *)
Theorem press_edge_debounce :
  (forall key ks,
      snd (handleKeyDown key ks) <> None <->
      isArrowKey key = true
      /\ keySignature (JsSet.add (pressedKeys ks) key)
         <> keySignature (lastTriggeredKeys ks))
  /\ (forall key ks targetIndex,
         snd (handleKeyDown key ks) = Some targetIndex ->
         getCellIndexFromKeys (JsSet.add (pressedKeys ks) key)
         = Some targetIndex
         /\ lastTriggeredKeys (fst (handleKeyDown key ks))
            = JsSet.add (pressedKeys ks) key)
  /\ (forall key ks,
         isArrowKey key = true ->
         let ks' := handleKeyUp key ks in
         (pressedKeys ks' = [] -> lastTriggeredKeys ks' = [])
         /\ keySignature (lastTriggeredKeys ks')
            = keySignature (pressedKeys ks'))
  /\ (forall s s',
         arrowSet s -> arrowSet s' ->
         (keySignature s = keySignature s'
          <-> forall k, JsSet.has s k = JsSet.has s' k))
  /\ (forall ks key,
         KeysReachable ks ->
         snd (handleKeyDown key ks)
         = if isArrowKey key && negb (JsSet.has (pressedKeys ks) key)
           then getCellIndexFromKeys (pressedKeys ks ++ [key])
           else None)
  /\ snd (handleKeys [KeyDown "ArrowUp"; KeyDown "ArrowLeft"] initialKeys)
     = [1; 0]
  /\ snd (handleKeys [KeyDown "ArrowUp"; KeyDown "ArrowUp";
                      KeyDown "ArrowLeft"; KeyDown "ArrowLeft";
                      KeyDown "ArrowUp"] initialKeys)
     = [1; 0]
  /\ snd (handleKeys [KeyDown "ArrowUp"; KeyDown "ArrowLeft";
                      KeyUp "ArrowLeft"; KeyUp "ArrowUp";
                      KeyDown "ArrowUp"] initialKeys)
     = [1; 0; 1].
Proof.
  split; [exact handleKeyDown_fires_iff|].
  split.
  { intros key ks targetIndex. unfold handleKeyDown.
    destruct (isArrowKey key); cbn [negb]; [|discriminate].
    destruct (getCellIndexFromKeys _) as [i|]; [|discriminate].
    destruct (negb _); cbn; [|discriminate].
    intros [= ->]. now split. }
  split.
  { intros key ks Hk ks'. subst ks'. unfold handleKeyUp. rewrite Hk.
    cbn [negb].
    destruct (JsSet.size _ =? 0)%nat eqn:Hsz.
    - cbn. apply Nat.eqb_eq, length_zero_iff_nil in Hsz. rewrite Hsz.
      now split.
    - destruct (String.eqb_spec
                  (keySignature (JsSet.delete (pressedKeys ks) key))
                  (keySignature (lastTriggeredKeys ks))) as [Heq|Hne];
        cbn [negb pressedKeys lastTriggeredKeys].
      + split; [|now symmetry]. intros Hnil. rewrite Hnil in Hsz.
        discriminate.
      + split; [|reflexivity]. intros Hnil. rewrite Hnil in Hsz.
        discriminate. }
  split; [exact keySignature_order_independent|].
  split; [intros; now apply handleKeyDown_reachable|].
  repeat split; reflexivity.
Qed.

(** ** Judgment *)

Section Sorting.
Let compare (a b : Circle * Q) : Q := (snd b - snd a)%Q.

(** The head of the sorted candidates is the first one of maximal size. *)
Lemma jsSort_head (l : list (Circle * Q)) :
  match jsSort compare l with
  | [] => l = []
  | w :: _ =>
      exists l1 l2,
        l = l1 ++ w :: l2
        /\ Forall (fun a => (snd a < snd w)%Q) l1
        /\ Forall (fun b => (snd b <= snd w)%Q) l2
  end.
Proof.
  induction l as [|a rest IH]; [reflexivity|].
  cbn [jsSort]. destruct (jsSort compare rest) as [|w tl].
  - subst rest. exists [], []. repeat split; constructor.
  - destruct IH as (r1 & r2 & -> & Hr1 & Hr2). cbn [sortInsert].
    destruct (Qle_bool (compare a w) 0) eqn:Hcmp.
    + apply Qle_bool_iff in Hcmp. unfold compare in Hcmp.
      exists [], (r1 ++ w :: r2). repeat split; [constructor|].
      apply Forall_app. split; [|constructor].
      * eapply List.Forall_impl; [|exact Hr1]. cbn. intros; lra.
      * lra.
      * eapply List.Forall_impl; [|exact Hr2]. cbn. intros; lra.
    + assert (~ (compare a w <= 0)%Q) as Hgt.
      { intros H. apply Qle_bool_iff in H. congruence. }
      unfold compare in Hgt.
      exists (a :: r1), r2. repeat split; [|assumption].
      constructor; [lra|assumption].
Qed.
End Sorting.

Lemma filter_split {A : Type} (p : A -> bool) (l f1 f2 : list A) (w : A) :
  List.filter p l = f1 ++ w :: f2 ->
  exists l1 l2,
    l = l1 ++ w :: l2 /\ List.filter p l1 = f1 /\ List.filter p l2 = f2
    /\ p w = true.
Proof.
  revert f1. induction l as [|a l IH]; intros f1 Hf.
  - destruct f1; discriminate.
  - cbn in Hf. destruct (p a) eqn:Hpa.
    + destruct f1 as [|b f1]; cbn in Hf; injection Hf as -> Hf.
      * exists [], l. now repeat split.
      * destruct (IH _ Hf) as (l1 & l2 & -> & <- & <- & Hw).
        exists (b :: l1), l2. cbn. rewrite Hpa. now repeat split.
    + destruct (IH _ Hf) as (l1 & l2 & -> & <- & <- & Hw).
      exists (a :: l1), l2. cbn. rewrite Hpa. now repeat split.
Qed.

Lemma eligible_iff (now : Z) (c : Circle) :
  isUnhit now c && inWindow now c = true <-> eligible now c.
Proof.
  unfold isUnhit, inWindow, eligible.
  destruct (hitStatus c); cbn.
  - split; [discriminate|]. intros [? _]. discriminate.
  - rewrite !andb_true_iff, !Z.leb_le. intuition.
Qed.

(** The candidates before sorting, in one pass over the cell. *)
Lemma circlesInWindow_eq (now : Z) (l : list Circle) :
  List.filter (fun cs : Circle * Q => inWindow now (fst cs))
    (List.map (fun circle => (circle, growth now circle))
       (List.filter (isUnhit now) l))
  = List.map (fun circle => (circle, growth now circle))
      (List.filter (fun c => isUnhit now c && inWindow now c) l).
Proof.
  induction l as [|c l IH]; [reflexivity|]. cbn [List.filter].
  destruct (isUnhit now c); cbn [andb List.map List.filter fst]; [|exact IH].
  destruct (inWindow now c); cbn [List.map]; now rewrite IH.
Qed.

Lemma sortedCircles_nil (now : Z) (cell : GridCell) :
  sortedCircles now cell = []
  <-> forall c, In c (circles cell) -> ~ eligible now c.
Proof.
  unfold sortedCircles. rewrite circlesInWindow_eq.
  pose proof (jsSort_head
                (List.map (fun circle => (circle, growth now circle))
                   (List.filter (fun c => isUnhit now c && inWindow now c)
                      (circles cell)))) as Hhead.
  cbv zeta in Hhead. split.
  - intros Hnil c Hin Hel. rewrite Hnil in Hhead.
    apply map_eq_nil in Hhead.
    assert (In c []) as []. rewrite <- Hhead. apply filter_In.
    split; [assumption|now apply eligible_iff].
  - intros Hnone.
    assert (List.filter (fun c => isUnhit now c && inWindow now c)
              (circles cell) = []) as ->; [|reflexivity].
    destruct (List.filter _ _) as [|c l] eqn:Hf; [reflexivity|].
    assert (In c (c :: l)) as Hin by now left.
    rewrite <- Hf in Hin. apply filter_In in Hin as [Hin Hc].
    apply eligible_iff in Hc. now apply Hnone in Hin.
Qed.

(** The winner of a press: an eligible circle of the cell whose growth no
    eligible circle exceeds and no earlier eligible circle reaches. *)
Lemma sortedCircles_winner (now : Z) (cell : GridCell) (w : Circle) (sz : Q)
    (rest : list (Circle * Q)) :
  sortedCircles now cell = (w, sz) :: rest ->
  exists l1 l2,
    circles cell = l1 ++ w :: l2
    /\ sz = growth now w
    /\ eligible now w
    /\ (forall c, In c l1 -> eligible now c ->
                  (growth now c < growth now w)%Q)
    /\ (forall c, In c l2 -> eligible now c ->
                  (growth now c <= growth now w)%Q).
Proof.
  unfold sortedCircles. rewrite circlesInWindow_eq. intros Hsorted.
  pose proof (jsSort_head
                (List.map (fun circle => (circle, growth now circle))
                   (List.filter (fun c => isUnhit now c && inWindow now c)
                      (circles cell)))) as Hhead.
  cbv zeta in Hhead. rewrite Hsorted in Hhead.
  destruct Hhead as (m1 & m2 & Hmap & Hm1 & Hm2).
  apply map_eq_app in Hmap as (f1 & f2' & Hf & <- & Hf2).
  destruct f2' as [|w' f2]; [discriminate|]. cbn in Hf2.
  injection Hf2 as <- <- <-.
  apply filter_split in Hf as (l1 & l2 & Hcell & <- & <- & Hw).
  exists l1, l2. split; [assumption|]. split; [reflexivity|].
  split; [now apply eligible_iff|]. split.
  - intros c Hin Hel. rewrite List.Forall_forall in Hm1.
    apply (Hm1 (c, growth now c)). apply in_map_iff. exists c.
    split; [reflexivity|]. apply filter_In. split; [assumption|].
    now apply eligible_iff.
  - intros c Hin Hel. rewrite List.Forall_forall in Hm2.
    apply (Hm2 (c, growth now c)). apply in_map_iff. exists c.
    split; [reflexivity|]. apply filter_In. split; [assumption|].
    now apply eligible_iff.
Qed.

Lemma pressCell_no_winner (now : Z) (cell : GridCell) :
  sortedCircles now cell = [] -> pressCell now cell = cell.
Proof.
  unfold sortedCircles, pressCell. cbv zeta. intros Hnil.
  rewrite Hnil. destruct (length _ =? 0)%nat; [reflexivity|].
  now destruct (0 <? _)%nat.
Qed.

Lemma pressCell_winner (now : Z) (cell : GridCell) (w : Circle) (sz : Q)
    (rest : list (Circle * Q)) :
  sortedCircles now cell = (w, sz) :: rest ->
  pressCell now cell
  = mkGridCell (index cell)
      (List.map (fun circle =>
                   if bool_decide (id circle = id w)
                   then markHit now (calculateHitRating now (perfectTime w))
                                sz (targetPosition w) circle
                   else circle)
                (circles cell)).
Proof.
  unfold sortedCircles, pressCell. cbv zeta. intros Hsorted.
  rewrite Hsorted.
  destruct (length _ =? 0)%nat eqn:Hlen.
  { apply Nat.eqb_eq, length_zero_iff_nil in Hlen.
    rewrite Hlen in Hsorted. discriminate. }
  destruct (0 <? _)%nat eqn:Hwin; [reflexivity|].
  apply Nat.ltb_ge in Hwin. apply Nat.le_0_r, length_zero_iff_nil in Hwin.
  rewrite Hwin in Hsorted. discriminate.
Qed.


Lemma map_update_unique (g : Circle -> Circle) (l1 l2 : list Circle)
    (w : Circle) :
  List.NoDup (List.map id (l1 ++ w :: l2)) ->
  List.map (fun c => if bool_decide (id c = id w) then g c else c)
           (l1 ++ w :: l2)
  = l1 ++ g w :: l2.
Proof.
  intros Hnd. rewrite map_app in Hnd. cbn in Hnd.
  apply List.NoDup_remove_2 in Hnd.
  rewrite map_app. cbn [List.map].
  rewrite bool_decide_eq_true_2 by reflexivity.
  assert (forall l, (forall c, In c l -> id c <> id w) ->
                    List.map (fun c => if bool_decide (id c = id w)
                                       then g c else c) l = l) as Hsame.
  { induction l as [|c l IH]; [reflexivity|]. intros Hne. cbn.
    rewrite bool_decide_eq_false_2 by (apply Hne; now left).
    f_equal. apply IH. intros c' Hc'. apply Hne. now right. }
  rewrite !Hsame; [reflexivity| |].
  - intros c Hc Heq. apply Hnd, in_or_app. right.
    rewrite <- Heq. now apply in_map.
  - intros c Hc Heq. apply Hnd, in_or_app. left.
    rewrite <- Heq. now apply in_map.
Qed.



Lemma handleCellPress_noop (cellIndex now : Z) (grid : list GridCell) :
  (forall cell c, In cell grid -> index cell = cellIndex ->
                  In c (circles cell) -> ~ eligible now c) ->
  handleCellPress cellIndex now grid = grid.
Proof.
  induction grid as [|cell grid IH]; [reflexivity|]. intros Hnone.
  unfold handleCellPress. cbn [List.map].
  fold (handleCellPress cellIndex now grid).
  rewrite IH by (intros c' c Hc'; apply Hnone; now right). f_equal.
  destruct (Z.eqb_spec (index cell) cellIndex) as [Heq|_]; [|reflexivity].
  cbn [negb]. apply pressCell_no_winner, sortedCircles_nil.
  intros c. apply Hnone; [now left|assumption].
Qed.

(** ** Invariants of the session *)

Lemma growth_bounds (now : Z) (c : Circle) :
  duration c = GROWTH_DURATION -> startTime c <= now ->
  (0 <= growth now c)%Q /\ (growth now c <= 1)%Q.
Proof.
  intros Hd Hs. unfold growth. rewrite Hd. split.
  - apply Q.min_glb; [|discriminate].
    apply Qle_shift_div_l; [reflexivity|].
    rewrite Qmult_0_l. change 0%Q with (inject_Z 0).
    rewrite <- Zle_Qle. lia.
  - apply Q.le_min_r.
Qed.

Lemma circleOk_mono (t t' : Z) (c : Circle) :
  t <= t' -> circleOk t c -> circleOk t' c.
Proof. intros Ht [? ? ? ? ? ? ? ?]. constructor; trivial. lia. Qed.

Lemma circleOk_new (vp : Viewport) (now : Z) (index : nat)
    (item : TrackItem) :
  circleOk now (newCircle vp now index item).
Proof.
  constructor; cbn; try reflexivity; try lia; try tauto.
  split; [apply Qle_refl|discriminate].
Qed.

Lemma id_advanceCircle (now : Z) (c : Circle) :
  id (advanceCircle now c) = id c.
Proof.
  unfold advanceCircle. destruct (hitStatus c); [reflexivity|].
  cbv zeta. now destruct (_ <? now).
Qed.

Lemma advanceCircle_resolved (now : Z) (c : Circle) :
  hitStatus c <> None -> logicalState (advanceCircle now c) = logicalState c.
Proof.
  unfold advanceCircle. destruct (hitStatus c) eqn:Hs; [|congruence].
  intros _. unfold logicalState. cbn. now rewrite Hs.
Qed.

Lemma circleOk_advance (t now : Z) (c : Circle) :
  t <= now -> circleOk t c -> circleOk now (advanceCircle now c).
Proof.
  intros Ht Hok. pose proof (circleOk_mono _ _ _ Ht Hok) as Hok'.
  destruct Hok' as [Hd Hst Hws Hwe Hp Hsz Hres Hci].
  unfold advanceCircle. destruct (hitStatus c) eqn:Hs.
  - constructor; cbn; trivial.
  - cbv zeta. destruct (_ <? now).
    + constructor; cbn; trivial. split; discriminate.
    + constructor; cbn; trivial. now apply growth_bounds.
Qed.

Lemma circleOk_markHit (t now : Z) (rating : HitRating) (hit c : Circle) :
  t <= now -> circleOk t hit -> circleOk t c ->
  circleOk now (markHit now rating (growth now hit) (targetPosition hit) c).
Proof.
  intros Ht Hhit Hok. apply (circleOk_mono _ _ _ Ht) in Hhit, Hok.
  destruct Hok as [Hd Hst Hws Hwe Hp Hsz Hres Hci].
  constructor; cbn; trivial.
  - apply growth_bounds; now destruct Hhit.
  - split; discriminate.
Qed.

Lemma id_markHit (now : Z) (r : HitRating) (sz : Q) (p : Position)
    (c : Circle) :
  id (markHit now r sz p c) = id c.
Proof. reflexivity. Qed.

Lemma NoDup_map_filter {A B : Type} (f : A -> B) (p : A -> bool)
    (l : list A) :
  List.NoDup (List.map f l) -> List.NoDup (List.map f (List.filter p l)).
Proof.
  induction l as [|a l IH]; [trivial|]. cbn. intros Hnd.
  inversion Hnd as [|? ? Hnot Hnd']; subst.
  destruct (p a); cbn; [|now apply IH].
  constructor; [|now apply IH].
  intros Hin. apply Hnot. apply in_map_iff in Hin as (x & Hx & Hin).
  apply filter_In in Hin as [Hin _]. apply in_map_iff. now exists x.
Qed.

Lemma createdIds_app (log log' : list Fired) :
  createdIds (log ++ log') = createdIds log ++ createdIds log'.
Proof. unfold createdIds. apply flat_map_app. Qed.

Lemma createdIds_index (track : Track) (log : list Fired) (i : CircleId) :
  Forall (firedOk track) log -> In i (createdIds log) ->
  In (id_index i) (List.map firedIndex log).
Proof.
  intros Hok Hin. unfold createdIds in Hin.
  apply in_flat_map in Hin as (f & Hf & Hin).
  rewrite List.Forall_forall in Hok. destruct (Hok f Hf) as [_ Hc].
  destruct (firedCircle f) as [c|]; [|contradiction].
  destruct Hin as [<-|[]]. destruct Hc as [_ ->]. cbn.
  now apply in_map.
Qed.

Lemma circlesOk_mono (t t' : Z) (log log' : list Fired) (l : list Circle) :
  t <= t' -> incl (createdIds log) (createdIds log') ->
  circlesOk t log l -> circlesOk t' log' l.
Proof.
  intros Ht Hincl [Hids Heach Hcreated]. constructor; [assumption| |].
  - eapply List.Forall_impl; [|exact Heach]. intros c. now apply circleOk_mono.
  - eapply List.Forall_impl; [|exact Hcreated]. intros c. apply Hincl.
Qed.

Lemma circlesOk_animate (t now : Z) (log : list Fired) (l : list Circle) :
  t <= now -> circlesOk t log l ->
  circlesOk now log
    (List.filter (keepCircle now) (List.map (advanceCircle now) l)).
Proof.
  intros Ht [Hids Heach Hcreated].
  assert (List.map id (List.map (advanceCircle now) l) = List.map id l)
    as Hsame.
  { rewrite map_map. apply map_ext. intros c. apply id_advanceCircle. }
  constructor.
  - apply NoDup_map_filter. now rewrite Hsame.
  - apply List.Forall_forall. intros c' Hc'.
    apply filter_In in Hc' as [Hc' _].
    apply in_map_iff in Hc' as (c & <- & Hc).
    rewrite List.Forall_forall in Heach.
    apply (circleOk_advance t); auto.
  - apply List.Forall_forall. intros c' Hc'.
    apply filter_In in Hc' as [Hc' _].
    apply in_map_iff in Hc' as (c & <- & Hc).
    rewrite List.Forall_forall in Hcreated.
    rewrite id_advanceCircle. auto.
Qed.

Lemma circlesOk_press (t now : Z) (log : list Fired) (cell : GridCell) :
  t <= now -> circlesOk t log (circles cell) ->
  circlesOk now log (circles (pressCell now cell)).
Proof.
  intros Ht Hok.
  destruct (sortedCircles now cell) as [|[w sz] rest] eqn:Hsorted.
  - rewrite (pressCell_no_winner _ _ Hsorted).
    apply (circlesOk_mono t _ log); auto. apply incl_refl.
  - rewrite (pressCell_winner _ _ _ _ _ Hsorted). cbn [circles].
    destruct (sortedCircles_winner _ _ _ _ _ Hsorted)
      as (l1 & l2 & Hcell & -> & _).
    destruct Hok as [Hids Heach Hcreated].
    rewrite List.Forall_forall in Heach, Hcreated.
    assert (In w (circles cell)) as Hw.
    { rewrite Hcell. apply in_or_app. right. now left. }
    constructor.
    + rewrite map_map. erewrite map_ext; [exact Hids|].
      intros c. cbn. now destruct (bool_decide _).
    + apply List.Forall_forall. intros c' Hc'.
      apply in_map_iff in Hc' as (c & <- & Hc).
      destruct (bool_decide _).
      * apply (circleOk_markHit t); auto.
      * apply (circleOk_mono t); auto.
    + apply List.Forall_forall. intros c' Hc'.
      apply in_map_iff in Hc' as (c & <- & Hc).
      destruct (bool_decide _); cbn; auto.
Qed.

Lemma circlesOk_insert (t : Z) (log : list Fired)
    (l : list Circle) (index : nat) (item : TrackItem) (c : Circle) :
  circlesOk t log l -> ~ In (id c) (createdIds log) -> circleOk t c ->
  circlesOk t (log ++ [mkFired index item (Some c)]) (l ++ [c]).
Proof.
  intros [Hids Heach Hcreated] Hfresh Hc. constructor.
  - rewrite map_app. cbn. apply NoDup_ListNoDup, NoDup_app.
    apply NoDup_ListNoDup in Hids.
    repeat split; [assumption| |apply NoDup_singleton].
    intros i Hi Hi'. apply list_elem_of_singleton in Hi'. subst i.
    apply Hfresh. apply list_elem_of_In in Hi.
    apply in_map_iff in Hi as (c' & <- & Hc').
    rewrite List.Forall_forall in Hcreated. auto.
  - apply Forall_app. split; [assumption|now constructor].
  - rewrite createdIds_app. apply Forall_app. split.
    + eapply List.Forall_impl; [|exact Hcreated].
      intros c' Hc'. apply in_or_app. now left.
    + constructor; [|constructor]. apply in_or_app. right. now left.
Qed.

Lemma NoDup_snoc {A : Type} (l : list A) (a : A) :
  List.NoDup l -> ~ In a l -> List.NoDup (l ++ [a]).
Proof.
  intros Hnd Hnot. apply NoDup_ListNoDup, NoDup_app.
  apply NoDup_ListNoDup in Hnd.
  repeat split; [assumption| |apply NoDup_singleton].
  intros x Hx Hx'. apply list_elem_of_singleton in Hx'. subst x.
  apply Hnot. now apply list_elem_of_In.
Qed.

Lemma forEachFrom_invariant {S : Type} (f : S -> nat -> TrackItem -> S)
    (P : nat -> S -> Prop) (items : list TrackItem) (i : nat) (st : S) :
  P i st ->
  (forall k item st',
      nth_error items k = Some item -> P (i + k)%nat st' ->
      P (Datatypes.S (i + k)) (f st' (i + k)%nat item)) ->
  P (i + length items)%nat (forEachFrom f i items st).
Proof.
  revert i st. induction items as [|a rest IH]; intros i st Hst Hstep.
  - cbn. now rewrite Nat.add_0_r.
  - cbn [forEachFrom length]. rewrite Nat.add_succ_r.
    apply (IH (Datatypes.S i)).
    + specialize (Hstep 0%nat a st eq_refl).
      rewrite Nat.add_0_r in Hstep. now apply Hstep.
    + intros k item st' Hk Hst'. specialize (Hstep (Datatypes.S k) item st' Hk).
      rewrite Nat.add_succ_r in Hstep. now apply Hstep.
Qed.

Lemma index_insertCircle (c : Circle) (grid : list GridCell) :
  List.map index (insertCircle c grid) = List.map index grid.
Proof.
  unfold insertCircle. rewrite map_map. apply map_ext.
  intros cell. now destruct (_ =? _).
Qed.

Lemma spawnItem_ok (vp : Viewport) (now elapsed : Z) (track : Track)
    (log0 : list Fired) (st : SpawnState) (index : nat) (item : TrackItem) :
  nth_error track index = Some item ->
  spawnStateOk now track log0 st ->
  spawnStateOk now track log0 (spawnItem vp now elapsed st index item).
Proof.
  intros Hitem [[Hidx Hcells Honce Hfired] Hcover]. unfold spawnItem.
  case_bool_decide as Hspawned; [now split|].
  destruct (_ <=? elapsed); [|now split].
  assert (~ In index (List.map firedIndex (log0 ++ sp_log st))) as Hnew.
  { intros Hin. apply in_map_iff in Hin as (f & <- & Hf).
    rewrite List.Forall_forall in Hcover. now apply Hcover in Hf. }
  destruct (invalidCellIndex (itemCellIndex item)) eqn:Hvalid.
  - split; cbn [sp_cells sp_log sp_spawned]; rewrite app_assoc.
    + constructor; [assumption| | |].
      * eapply List.Forall_impl; [|exact Hcells]. intros cell.
        apply circlesOk_mono; [lia|]. rewrite (createdIds_app (log0 ++ sp_log st)).
        apply incl_appl, incl_refl.
      * rewrite map_app. now apply NoDup_snoc.
      * apply Forall_app. split; [assumption|].
        constructor; [|constructor]. now split.
    + apply Forall_app. split.
      * eapply List.Forall_impl; [|exact Hcover]. cbn. set_solver.
      * constructor; [|constructor]. cbn. set_solver.
  - split; cbn [sp_cells sp_log sp_spawned]; rewrite app_assoc.
    + constructor.
      * now rewrite index_insertCircle.
      * unfold insertCircle. apply Forall_map.
        eapply List.Forall_impl; [|exact Hcells]. intros cell Hcell.
        destruct (_ =? _); cbn [circles].
        -- apply circlesOk_insert; [assumption| |apply circleOk_new].
           intros Hin. apply Hnew.
           now apply (createdIds_index track) in Hin.
        -- revert Hcell. apply circlesOk_mono; [lia|].
           rewrite (createdIds_app (log0 ++ sp_log st)).
           apply incl_appl, incl_refl.
      * rewrite map_app. now apply NoDup_snoc.
      * apply Forall_app. split; [assumption|].
        constructor; [|constructor]. split; [assumption|]. now split.
    + apply Forall_app. split.
      * eapply List.Forall_impl; [|exact Hcover]. cbn. set_solver.
      * constructor; [|constructor]. cbn. set_solver.
Qed.

Lemma gridOk_map (t t' : Z) (track : Track) (grid : list GridCell)
    (log : list Fired) (g : GridCell -> GridCell) :
  (forall cell, index (g cell) = index cell) ->
  (forall cell, circlesOk t log (circles cell) ->
                circlesOk t' log (circles (g cell))) ->
  gridOk t track grid log -> gridOk t' track (List.map g grid) log.
Proof.
  intros Hidx Hg [Hindexes Hcells Honce Hfired]. constructor; trivial.
  - rewrite map_map. erewrite map_ext; [exact Hindexes|]. apply Hidx.
  - apply Forall_map. eapply List.Forall_impl; [|exact Hcells]. apply Hg.
Qed.

Lemma sessionOk_mono (t t' : Z) (track : Track) (s : Session)
    (log : list Fired) :
  t <= t' -> sessionOk t track s log -> sessionOk t' track s log.
Proof.
  intros Ht [Hgrid Hcover]. split; [|assumption].
  rewrite <- (map_id (cells s)). revert Hgrid.
  apply gridOk_map; [reflexivity|]. intros cell.
  apply circlesOk_mono; [assumption|apply incl_refl].
Qed.

Lemma spawnFromTrack_ok (vp : Viewport) (track : Track) (t now : Z)
    (s : Session) (log : list Fired) :
  t <= now -> sessionOk t track s log ->
  sessionOk now track (fst (spawnFromTrack vp track now s))
            (log ++ snd (spawnFromTrack vp track now s)).
Proof.
  intros Ht Hok. apply (sessionOk_mono _ _ _ _ _ Ht) in Hok.
  unfold spawnFromTrack.
  destruct (isPlaying s); cbn [negb fst snd]; [|now rewrite app_nil_r].
  destruct (trackStartTime s) as [start|] eqn:Hstart; cbn [fst snd];
    [|now rewrite app_nil_r].
  destruct Hok as [Hgrid Hcover].
  pose proof (forEachFrom_invariant (spawnItem vp now (now - start))
                (fun _ st => spawnStateOk now track log st) track 0%nat
                (mkSpawnState (spawnedIndices s) (cells s) [])) as Hloop.
  cbv beta in Hloop. destruct Hloop as [Hgrid' Hcover'].
  - split; cbn [sp_cells sp_log sp_spawned]; rewrite app_nil_r;
      [assumption|]. apply Hcover. congruence.
  - intros k item st' Hk Hst'. now apply spawnItem_ok.
  - split; [assumption|]. intros _. assumption.
Qed.

Lemma animate_ok (vp : Viewport) (track : Track) (t nowSpawn now : Z)
    (s : Session) (log : list Fired) :
  t <= nowSpawn -> nowSpawn <= now -> sessionOk t track s log ->
  sessionOk now track (fst (animate vp track nowSpawn now s))
            (log ++ snd (animate vp track nowSpawn now s)).
Proof.
  intros Ht Hnow Hok.
  pose proof (spawnFromTrack_ok vp track t nowSpawn s log Ht Hok) as Hspawn.
  unfold animate. destruct (spawnFromTrack vp track nowSpawn s) as [s1 fired].
  cbn [fst snd] in *. destruct Hspawn as [Hgrid Hcover].
  split; cbn [cells trackStartTime spawnedIndices]; [|assumption].
  revert Hgrid. apply gridOk_map; [reflexivity|].
  intros cell. now apply circlesOk_animate.
Qed.

Lemma handleCellPress_ok (track : Track) (t now cellIndex : Z)
    (grid : list GridCell) (log : list Fired) :
  t <= now -> gridOk t track grid log ->
  gridOk now track (handleCellPress cellIndex now grid) log.
Proof.
  intros Ht. apply gridOk_map.
  - intros cell. destruct (negb _); [reflexivity|].
    destruct (sortedCircles now cell) as [|[w sz] rest] eqn:Hsorted.
    + now rewrite (pressCell_no_winner _ _ Hsorted).
    + now rewrite (pressCell_winner _ _ _ _ _ Hsorted).
  - intros cell Hcell. destruct (negb _).
    + revert Hcell. apply circlesOk_mono; [assumption|apply incl_refl].
    + now apply (circlesOk_press t).
Qed.

Lemma emptyCells_ok (t : Z) (track : Track) :
  gridOk t track emptyCells [].
Proof.
  constructor; [reflexivity| |constructor|constructor].
  cbn. repeat constructor.
Qed.

Lemma initialSession_ok (t : Z) (track : Track) :
  sessionOk t track initialSession [].
Proof. split; [apply emptyCells_ok|intros; constructor]. Qed.

Lemma step_ok (track : Track) (t : Z) (s : Session) (log : list Fired)
    (i : Input) :
  t <= clockIn i -> clockIn i <= clockOut i ->
  sessionOk t track s log ->
  sessionOk (clockOut i) track (fst (step track i s log))
            (snd (step track i s log)).
Proof.
  intros Hin Hout Hok. destruct i as [now|vp nowSpawn now|ci now|now];
    cbn [clockIn clockOut step] in *.
  - split; [apply emptyCells_ok|intros; constructor].
  - pose proof (animate_ok vp track t nowSpawn now s log Hin Hout Hok) as H.
    now destruct (animate vp track nowSpawn now s).
  - destruct Hok as [Hgrid Hcover]. split; [|assumption]. cbn [fst cells].
    now apply (handleCellPress_ok track t).
  - apply (sessionOk_mono _ _ _ _ _ Hin) in Hok. cbn [fst snd].
    unfold checkTrackFinished. destruct (isPlaying s); [|assumption].
    destruct (trackStartTime s) eqn:Hstart; [|assumption].
    destruct Hok as [Hgrid Hcover].
    destruct track as [|first rest];
      [split; [assumption|intros H; now cbn in H]|].
    destruct (_ <? _); [split; [assumption|intros H; now cbn in H]|].
    now split.
Qed.

Lemma Reachable_ok (track : Track) (t : Z) (s : Session) (log : list Fired) :
  Reachable track t s log -> sessionOk t track s log.
Proof.
  induction 1 as [t|t s log i _ IH Hin Hout].
  - apply initialSession_ok.
  - now apply (step_ok track t).
Qed.

Lemma NoDup_gridIndexes : List.NoDup gridIndexes.
Proof.
  unfold gridIndexes.
  repeat (constructor; [cbn; intuition discriminate|]). constructor.
Qed.

Lemma Reachable_run (track : Track) (inputs : list Input) (t : Z)
    (s : Session) (log : list Fired) :
  Reachable track t s log -> clockOk t inputs = true ->
  Reachable track (lastClock t inputs) (fst (run track inputs s log))
            (snd (run track inputs s log)).
Proof.
  revert t s log. induction inputs as [|i rest IH]; intros t s log Hr Hclock.
  - exact Hr.
  - cbn in Hclock. apply andb_true_iff in Hclock as [Hclock Hrest].
    apply andb_true_iff in Hclock as [Hin Hout].
    apply Z.leb_le in Hin, Hout.
    pose proof (Reachable_step track t s log i Hr Hin Hout) as Hstep.
    cbn [run lastClock fold_left].
    destruct (step track i s log) as [s' log']. now apply IH.
Qed.


(** ** Scheduler *)

Lemma spawnItem_already_spawned (vp : Viewport) (now elapsed : Z)
    (st : SpawnState) (index : nat) (item : TrackItem) :
  index ∈ sp_spawned st -> spawnItem vp now elapsed st index item = st.
Proof.
  intros Hin. unfold spawnItem. now rewrite bool_decide_eq_true_2.
Qed.

Lemma NoDup_createdIds (track : Track) (log : list Fired) :
  Forall (firedOk track) log -> List.NoDup (List.map firedIndex log) ->
  List.NoDup (List.map id_index (createdIds log)).
Proof.
  induction log as [|f log IH]; [constructor|]. intros Hok Hnd.
  inversion Hok as [|? ? Hf Hok']; subst.
  inversion Hnd as [|? ? Hnot Hnd']; subst.
  specialize (IH Hok' Hnd').
  change (createdIds (f :: log))
    with (match firedCircle f with Some c => [id c] | None => [] end
            ++ createdIds log).
  destruct Hf as [_ Hf]. destruct (firedCircle f) as [c|]; [|exact IH].
  destruct Hf as [_ Hid]. cbn. constructor; [|exact IH].
  intros Hin. apply Hnot. apply in_map_iff in Hin as (i & Hi & Hin).
  apply (createdIds_index track) in Hin; [|assumption].
  rewrite Hi, Hid in Hin. exact Hin.
Qed.

Lemma NoDup_filter_length {A : Type} (g : A -> nat) (i : nat) (l : list A) :
  List.NoDup (List.map g l) ->
  (length (List.filter (fun a => (g a =? i)%nat) l) <= 1)%nat.
Proof.
  induction l as [|a l IH]; [cbn; lia|]. intros Hnd.
  inversion Hnd as [|? ? Hnot Hnd']; subst. specialize (IH Hnd'). cbn.
  destruct (Nat.eqb_spec (g a) i) as [Heq|_]; [|exact IH]. cbn.
  assert (List.filter (fun a => (g a =? i)%nat) l = []) as ->; [|cbn; lia].
  destruct (List.filter _ l) as [|b rest] eqn:Hf; [reflexivity|].
  exfalso. apply Hnot. assert (In b (b :: rest)) as Hb by now left.
  rewrite <- Hf in Hb. apply filter_In in Hb as [Hb Hgb].
  apply Nat.eqb_eq in Hgb. rewrite Heq, <- Hgb. now apply in_map.
Qed.

(** C3. In every reachable session, the log of the current run holds each
    track index at most once, at most one circle was created for each
    index, and every circle in the grid is one of those; and an index that
    is in the fired set is skipped before anything else about the event is
    looked at, its due time and its cell index included. *)
Theorem each_index_fires_once :
  (forall track t s log,
      Reachable track t s log ->
      List.NoDup (List.map firedIndex log)
      /\ (forall i,
             (length (List.filter (fun f => (firedIndex f =? i)%nat) log)
              <= 1)%nat)
      /\ (forall i,
             (length (List.filter (fun cid => (id_index cid =? i)%nat)
                                  (createdIds log)) <= 1)%nat)
      /\ (forall cell c,
             In cell (cells s) -> In c (circles cell) ->
             In (id c) (createdIds log)))
  /\ (forall vp now elapsed st index item,
         index ∈ sp_spawned st ->
         spawnItem vp now elapsed st index item = st).
Proof.
  split; [|exact spawnItem_already_spawned].
  intros track t s log Hreach.
  apply Reachable_ok in Hreach as [[_ Hcells Honce Hfired] _].
  split; [assumption|]. split; [|split].
  - intros i. now apply NoDup_filter_length.
  - intros i. apply NoDup_filter_length.
    now apply (NoDup_createdIds track).
  - intros cell c Hcell Hc. rewrite List.Forall_forall in Hcells.
    destruct (Hcells cell Hcell) as [_ _ Hcreated].
    rewrite List.Forall_forall in Hcreated. now apply Hcreated.
Qed.

Lemma invalidCellIndex_iff (ci : Z) :
  invalidCellIndex ci = true <-> ci = CENTER_INDEX \/ ci < 0 \/ 8 < ci.
Proof.
  unfold invalidCellIndex, GRID_SIZE, CENTER_INDEX.
  rewrite !orb_true_iff, Z.eqb_eq, Z.ltb_lt, Z.leb_le. lia.
Qed.



Lemma StronglySorted_snoc {A : Type} (R : A -> A -> Prop) (l : list A)
    (a : A) :
  StronglySorted R l -> Forall (fun b => R b a) l ->
  StronglySorted R (l ++ [a]).
Proof.
  induction 1 as [|b l Hl IH Hb]; intros Hall; cbn.
  - repeat constructor.
  - inversion Hall; subst. constructor; [now apply IH|].
    apply Forall_app. split; [assumption|now constructor].
Qed.

Lemma sorted_track_nth (track : Track) :
  Sorted Z.le (List.map spawnTime track) ->
  forall i j a b,
    (i < j)%nat -> nth_error track i = Some a -> nth_error track j = Some b ->
    spawnTime a <= spawnTime b.
Proof.
  intros Hsorted. apply Sorted_StronglySorted in Hsorted;
    [|intros x y z; apply Z.le_trans].
  induction track as [|c track IH]; intros i j a b Hij Ha Hb.
  - destruct i; discriminate.
  - cbn in Hsorted. inversion Hsorted as [|? ? Hrest Hall]; subst.
    destruct j as [|j]; [lia|]. cbn in Hb. destruct i as [|i].
    + injection Ha as ->. rewrite List.Forall_forall in Hall.
      apply Hall. apply in_map. now apply nth_error_In in Hb.
    + cbn in Ha. apply (IH Hrest i j); trivial. lia.
Qed.

Lemma firedSpawnTimes_app (log log' : list Fired) :
  firedSpawnTimes (log ++ log')
  = firedSpawnTimes log ++ firedSpawnTimes log'.
Proof. apply map_app. Qed.

Lemma spawnOrder_fire (elapsed : Z) (track : Track) (log0 : list Fired)
    (st : SpawnState) (k : nat) (item : TrackItem) (grid : list GridCell)
    (created : option Circle) :
  Sorted Z.le (List.map spawnTime track) ->
  nth_error track k = Some item ->
  k ∉ sp_spawned st -> spawnTime item - 10 <= elapsed ->
  spawnOrderOk track elapsed log0 k st ->
  spawnOrderOk track elapsed log0 (Datatypes.S k)
    (mkSpawnState ({[k]} ∪ sp_spawned st) grid
                  (sp_log st ++ [mkFired k item created])).
Proof.
  intros Hsorted Hitem Hspawned Hdue (Hlog & Hbefore & Hnotdue).
  repeat split; cbn [sp_log sp_spawned sp_cells].
  - rewrite app_assoc, firedSpawnTimes_app. cbn.
    apply StronglySorted_snoc; [assumption|].
    apply List.Forall_forall. intros x Hx.
    apply in_map_iff in Hx as (f & <- & Hf).
    now apply (Hbefore f k item).
  - intros f k' item' Hf Hitem' Hnot. rewrite app_assoc in Hf.
    apply in_app_or in Hf as [Hf|[<-|[]]].
    { apply (Hbefore f k' item'); trivial. set_solver. }
    cbn. assert (k' <> k) as Hne by set_solver.
    destruct (Nat.lt_ge_cases k k') as [Hgt|Hle].
    { now apply (sorted_track_nth track Hsorted k k'). }
    assert (elapsed < spawnTime item' - 10); [|lia].
    apply (Hnotdue k'); trivial; [lia|set_solver].
  - intros k' item' Hk' Hitem' Hnot.
    assert (k' <> k) as Hne by set_solver.
    apply (Hnotdue k'); trivial; [lia|set_solver].
Qed.

Lemma spawnItem_order (vp : Viewport) (now elapsed : Z) (track : Track)
    (log0 : list Fired) (st : SpawnState) (k : nat) (item : TrackItem) :
  Sorted Z.le (List.map spawnTime track) ->
  nth_error track k = Some item ->
  spawnOrderOk track elapsed log0 k st ->
  spawnOrderOk track elapsed log0 (Datatypes.S k)
               (spawnItem vp now elapsed st k item).
Proof.
  intros Hsorted Hitem Hok. unfold spawnItem.
  case_bool_decide as Hspawned; [|destruct (Z.leb_spec (spawnTime item - 10)
                                              elapsed) as [Hdue|Hearly]].
  - destruct Hok as (Hlog & Hbefore & Hnotdue). repeat split; trivial.
    intros k' item' Hk' Hitem' Hnot.
    assert (k' <> k) by congruence. apply (Hnotdue k'); trivial. lia.
  - destruct (invalidCellIndex (itemCellIndex item));
      now apply spawnOrder_fire.
  - destruct Hok as (Hlog & Hbefore & Hnotdue). repeat split; trivial.
    intros k' item' Hk' Hitem' Hnot.
    destruct (Nat.eq_dec k' k) as [->|Hne];
      [|apply (Hnotdue k'); trivial; lia].
    rewrite Hitem in Hitem'. injection Hitem' as <-. lia.
Qed.



Lemma spawnFromTrack_order (vp : Viewport) (track : Track) (now : Z)
    (s : Session) (log : list Fired) :
  Sorted Z.le (List.map spawnTime track) ->
  orderOk track s log ->
  orderOk track (fst (spawnFromTrack vp track now s))
          (log ++ snd (spawnFromTrack vp track now s)).
Proof.
  intros Hsorted Hok. unfold spawnFromTrack.
  destruct (isPlaying s); cbn [negb fst snd]; [|now rewrite app_nil_r].
  destruct (trackStartTime s) as [start|] eqn:Hstart; cbn [fst snd];
    [|now rewrite app_nil_r].
  destruct Hok as [Hlog Hbefore].
  pose proof (forEachFrom_invariant (spawnItem vp now (now - start))
                (fun i st => spawnOrderOk track (now - start) log i st)
                track 0%nat
                (mkSpawnState (spawnedIndices s) (cells s) [])) as Hloop.
  cbv beta in Hloop. destruct Hloop as (Hlog' & Hbefore' & _).
  - repeat split; cbn [sp_cells sp_log sp_spawned]; rewrite ?app_nil_r;
      [assumption| |intros; lia]. apply Hbefore. congruence.
  - intros k item st' Hk Hst'. now apply spawnItem_order.
  - split; [assumption|]. intros _. assumption.
Qed.

Lemma step_order (track : Track) (s : Session) (log : list Fired)
    (i : Input) :
  Sorted Z.le (List.map spawnTime track) ->
  orderOk track s log ->
  orderOk track (fst (step track i s log)) (snd (step track i s log)).
Proof.
  intros Hsorted Hok. destruct i as [now|vp nowSpawn now|ci now|now];
    cbn [step].
  - split; [constructor|]. intros _ f k item [].
  - pose proof (spawnFromTrack_order vp track nowSpawn s log Hsorted Hok)
      as H.
    unfold animate. now destruct (spawnFromTrack vp track nowSpawn s).
  - exact Hok.
  - cbn [fst snd]. unfold checkTrackFinished.
    destruct (isPlaying s); [|assumption].
    destruct (trackStartTime s) eqn:Hstart; [|assumption].
    destruct Hok as [Hlog Hbefore].
    destruct track as [|first rest];
      [split; [assumption|intros H; now cbn in H]|].
    destruct (_ <? _); [split; [assumption|intros H; now cbn in H]|].
    now split.
Qed.

Lemma Reachable_order (track : Track) (t : Z) (s : Session)
    (log : list Fired) :
  Sorted Z.le (List.map spawnTime track) ->
  Reachable track t s log -> orderOk track s log.
Proof.
  intros Hsorted. induction 1 as [t|t s log i _ IH Hin Hout].
  - split; [constructor|]. intros H. now cbn in H.
  - now apply step_order.
Qed.



(** ** Resolution *)

Lemma Forall2_map_same {A : Type} (R : A -> A -> Prop) (g : A -> A)
    (l : list A) :
  (forall a, In a l -> R a (g a)) -> Forall2 R l (List.map g l).
Proof.
  induction l as [|a l IH]; intros H; cbn; constructor.
  - apply H. now left.
  - apply IH. intros b Hb. apply H. now right.
Qed.

Lemma Forall2_map_compose {A : Type} (R1 R3 : A -> A -> Prop) (g : A -> A)
    (l1 l2 : list A) :
  Forall2 R1 l1 l2 ->
  (forall a b, In a l1 -> In b l2 -> R1 a b -> R3 a (g b)) ->
  Forall2 R3 l1 (List.map g l2).
Proof.
  induction 1 as [|a b l1 l2 Hab _ IH]; intros H; cbn; constructor.
  - apply H; trivial; now left.
  - apply IH. intros a' b' Ha' Hb'. apply H; now right.
Qed.

Lemma NoDup_map_eq {A B : Type} (f : A -> B) (l : list A) (a b : A) :
  List.NoDup (List.map f l) -> In a l -> In b l -> f a = f b -> a = b.
Proof.
  induction l as [|c l IH]; [contradiction|]. cbn. intros Hnd Ha Hb Hf.
  inversion Hnd as [|? ? Hnot Hnd']; subst.
  destruct Ha as [->|Ha], Hb as [->|Hb]; trivial.
  - exfalso. apply Hnot. rewrite Hf. now apply in_map.
  - exfalso. apply Hnot. rewrite <- Hf. now apply in_map.
  - now apply IH.
Qed.

Lemma extends_refl (grid : list GridCell) : Forall2 extends grid grid.
Proof.
  rewrite <- (map_id grid) at 2. apply Forall2_map_same.
  intros cell _. split; [reflexivity|]. exists []. now rewrite app_nil_r.
Qed.

Lemma spawnItem_extends (vp : Viewport) (now elapsed : Z)
    (grid : list GridCell) (st : SpawnState) (k : nat) (item : TrackItem) :
  Forall2 extends grid (sp_cells st) ->
  Forall2 extends grid (sp_cells (spawnItem vp now elapsed st k item)).
Proof.
  intros Hext. unfold spawnItem. case_bool_decide; [assumption|].
  destruct (_ <=? elapsed); [|assumption].
  destruct (invalidCellIndex _); cbn [sp_cells]; [assumption|].
  unfold insertCircle. revert Hext. intros Hext.
  apply (Forall2_map_compose extends); [assumption|].
  intros a b _ _ [Hidx [spawned Hcircles]].
  destruct (_ =? _); [|now split; [|exists spawned]].
  split; [assumption|]. cbn [circles]. rewrite Hcircles, <- app_assoc.
  now eexists.
Qed.

Lemma spawnFromTrack_extends (vp : Viewport) (track : Track) (now : Z)
    (s : Session) :
  Forall2 extends (cells s) (cells (fst (spawnFromTrack vp track now s))).
Proof.
  unfold spawnFromTrack.
  destruct (isPlaying s); cbn [negb fst]; [|apply extends_refl].
  destruct (trackStartTime s) as [start|]; cbn [fst cells];
    [|apply extends_refl].
  apply (forEachFrom_invariant (spawnItem vp now (now - start))
           (fun _ st => Forall2 extends (cells s) (sp_cells st)) track 0%nat).
  - apply extends_refl.
  - intros k item st' _. apply spawnItem_extends.
Qed.

Lemma sortedCircles_head_unhit (now : Z) (cell : GridCell) (w : Circle)
    (sz : Q) (rest : list (Circle * Q)) :
  sortedCircles now cell = (w, sz) :: rest ->
  In w (circles cell) /\ hitStatus w = None.
Proof.
  intros Hsorted.
  destruct (sortedCircles_winner _ _ _ _ _ Hsorted)
    as (l1 & l2 & Hcell & _ & [Hw _] & _).
  split; [|assumption]. rewrite Hcell. apply in_or_app. right. now left.
Qed.

Lemma pressCell_resolved_fixed (now : Z) (cell : GridCell) (c c' : Circle) :
  List.NoDup (List.map id (circles cell)) ->
  In c (circles cell) -> hitStatus c <> None ->
  In c' (circles (pressCell now cell)) -> id c' = id c -> c' = c.
Proof.
  intros Hnd Hc Hres Hc' Hid.
  destruct (sortedCircles now cell) as [|[w sz] rest] eqn:Hsorted.
  - rewrite (pressCell_no_winner _ _ Hsorted) in Hc'.
    now apply (NoDup_map_eq id (circles cell)).
  - rewrite (pressCell_winner _ _ _ _ _ Hsorted) in Hc'. cbn [circles] in Hc'.
    apply in_map_iff in Hc' as (c0 & Hc0 & Hin).
    destruct (sortedCircles_head_unhit _ _ _ _ _ Hsorted) as [Hw Hunhit].
    assert (id c0 = id c) as Hid0.
    { rewrite <- Hid, <- Hc0. now destruct (bool_decide _). }
    assert (c0 = c) as -> by now apply (NoDup_map_eq id (circles cell)).
    case_bool_decide as Hsame; [|now symmetry].
    assert (c = w) as -> by now apply (NoDup_map_eq id (circles cell)).
    congruence.
Qed.

Lemma index_pressCell (now : Z) (cell : GridCell) :
  index (pressCell now cell) = index cell.
Proof.
  destruct (sortedCircles now cell) as [|[w sz] rest] eqn:Hsorted.
  - now rewrite (pressCell_no_winner _ _ Hsorted).
  - now rewrite (pressCell_winner _ _ _ _ _ Hsorted).
Qed.

Lemma emptyCells_related (R : GridCell -> GridCell -> Prop)
    (grid : list GridCell) :
  List.map index grid = gridIndexes ->
  (forall cell i, index cell = i -> R cell (mkGridCell i [])) ->
  Forall2 R grid emptyCells.
Proof.
  intros Hidx HR. unfold emptyCells, gridIndexes in *.
  do 9 (destruct grid as [|? grid]; [discriminate|]).
  destruct grid; [|discriminate]. cbn in Hidx.
  injection Hidx as ? ? ? ? ? ? ? ? ?.
  cbn. repeat constructor; now apply HR.
Qed.

Lemma cells_animate (vp : Viewport) (track : Track) (nowSpawn now : Z)
    (s : Session) :
  cells (fst (animate vp track nowSpawn now s))
  = List.map (animateCell now)
             (cells (fst (spawnFromTrack vp track nowSpawn s))).
Proof.
  unfold animate. now destruct (spawnFromTrack vp track nowSpawn s).
Qed.

Lemma cells_step_frame (track : Track) (vp : Viewport) (nowSpawn now : Z)
    (s : Session) (log : list Fired) :
  cells (fst (step track (AnimationFrame vp nowSpawn now) s log))
  = List.map (animateCell now)
             (cells (fst (spawnFromTrack vp track nowSpawn s))).
Proof.
  cbn [step]. rewrite <- cells_animate.
  now destruct (animate vp track nowSpawn now s).
Qed.

Lemma cells_checkTrackFinished (track : Track) (now : Z) (s : Session) :
  cells (checkTrackFinished track now s) = cells s.
Proof.
  unfold checkTrackFinished. destruct (isPlaying s); [|reflexivity].
  destruct (trackStartTime s); [|reflexivity].
  destruct track; [reflexivity|]. now destruct (_ <? _).
Qed.

Lemma Forall2_same {A : Type} (R : A -> A -> Prop) (l : list A) :
  (forall a, In a l -> R a a) -> Forall2 R l l.
Proof.
  intros H. rewrite <- (map_id l) at 2. now apply Forall2_map_same.
Qed.

(** C4. A resolved circle stays as it is.  The per-frame advance returns it
    with the same size, hitStatus, hitTime and hitRating; the winner a
    press selects always has [hitStatus = null]; and over every transition
    of a reachable session, a circle that was resolved before and is still
    in its cell afterwards has the same logical state. *)
Theorem resolution_is_final :
  (forall now c,
      hitStatus c <> None ->
      logicalState (advanceCircle now c) = logicalState c)
  /\ (forall now cell w sz rest,
         sortedCircles now cell = (w, sz) :: rest -> hitStatus w = None)
  /\ (forall track t s log i,
         Reachable track t s log ->
         t <= clockIn i -> clockIn i <= clockOut i ->
         Forall2
           (fun cell cell' =>
              index cell' = index cell
              /\ forall c c',
                  In c (circles cell) -> hitStatus c <> None ->
                  In c' (circles cell') -> id c' = id c ->
                  logicalState c' = logicalState c)
           (cells s) (cells (fst (step track i s log)))).
Proof.
  split; [exact advanceCircle_resolved|]. split.
  { intros now cell w sz rest Hsorted.
    now destruct (sortedCircles_head_unhit _ _ _ _ _ Hsorted). }
  intros track t s log i Hreach Hin Hout.
  apply Reachable_ok in Hreach.
  destruct i as [now|vp nowSpawn now|ci now|now]; cbn [clockIn clockOut] in *.
  - cbn [step fst startTrack cells]. destruct Hreach as [[Hidx _ _ _] _].
    apply emptyCells_related; [assumption|].
    intros cell i Hi. split; [now symmetry|]. intros c c' _ _ [].
  - rewrite cells_step_frame.
    pose proof (spawnFromTrack_ok vp track t nowSpawn s log Hin Hreach)
      as [[_ Hcells _ _] _].
    rewrite List.Forall_forall in Hcells.
    apply (Forall2_map_compose extends);
      [apply spawnFromTrack_extends|].
    intros a b _ Hb [Hidx [spawned Hcircles]]. split; [assumption|].
    intros c c' Hc Hres Hc' Hid. cbn [animateCell circles] in Hc'.
    apply filter_In in Hc' as [Hc' _].
    apply in_map_iff in Hc' as (c1 & <- & Hc1).
    rewrite id_advanceCircle in Hid.
    assert (c1 = c) as ->.
    { destruct (Hcells b Hb) as [Hnd _ _].
      apply (NoDup_map_eq id (circles b)); trivial.
      rewrite Hcircles. apply in_or_app. now left. }
    now apply advanceCircle_resolved.
  - cbn [step fst cells]. destruct Hreach as [[_ Hcells _ _] _].
    rewrite List.Forall_forall in Hcells.
    apply Forall2_map_same. intros cell Hcell.
    destruct (Hcells cell Hcell) as [Hnd _ _].
    destruct (negb _).
    + split; [reflexivity|]. intros c c' Hc _ Hc' Hid.
      now rewrite (NoDup_map_eq id (circles cell) c' c).
    + split; [apply index_pressCell|]. intros c c' Hc Hres Hc' Hid.
      now rewrite (pressCell_resolved_fixed now cell c c').
  - cbn [step fst]. rewrite cells_checkTrackFinished.
    destruct Hreach as [[_ Hcells _ _] _].
    rewrite List.Forall_forall in Hcells.
    apply Forall2_same. intros cell Hcell.
    destruct (Hcells cell Hcell) as [Hnd _ _].
    split; [reflexivity|]. intros c c' Hc _ Hc' Hid.
    now rewrite (NoDup_map_eq id (circles cell) c' c).
Qed.

(** ** Lifecycle and eviction *)


Lemma advanceCircle_unresolved (now : Z) (c : Circle) :
  hitStatus c = None ->
  (hitWindowEnd c + 50 < now ->
   hitStatus (advanceCircle now c) = Some miss
   /\ hitTime (advanceCircle now c) = Some now
   /\ hitRating (advanceCircle now c) = hitRating c
   /\ size (advanceCircle now c) = size c)
  /\ (now <= hitWindowEnd c + 50 ->
      hitStatus (advanceCircle now c) = None
      /\ hitTime (advanceCircle now c) = hitTime c
      /\ hitRating (advanceCircle now c) = hitRating c
      /\ size (advanceCircle now c) = growth now c).
Proof.
  intros Hs. unfold advanceCircle. rewrite Hs. cbv zeta.
  destruct (Z.ltb_spec (hitWindowEnd c + 50) now); split; intros ?;
    try lia; cbn; auto.
Qed.

Lemma keepCircle_resolved (now : Z) (c : Circle) (th : Z) :
  hitStatus c <> None -> hitTime c = Some th ->
  (keepCircle now (advanceCircle now c) = false
   <-> HIT_FEEDBACK_DURATION <= now - th).
Proof.
  intros Hs Ht. unfold advanceCircle.
  destruct (hitStatus c); [|congruence]. unfold keepCircle. cbn.
  rewrite Ht, Z.ltb_ge. reflexivity.
Qed.



Lemma animateCell_all_resolved (now : Z) (cell : GridCell) :
  (forall c, In c (circles cell) -> hitWindowEnd c + 50 < now) ->
  forall c', In c' (circles (animateCell now cell)) -> hitStatus c' <> None.
Proof.
  intros Hlate c' Hc'. cbn [animateCell circles] in Hc'.
  apply filter_In in Hc' as [Hc' _].
  apply in_map_iff in Hc' as (c & <- & Hc). specialize (Hlate c Hc).
  unfold advanceCircle. destruct (hitStatus c) eqn:Hs.
  - cbn. congruence.
  - apply Z.ltb_lt in Hlate. cbv zeta. rewrite Hlate. cbn. discriminate.
Qed.

(** C6. For an unresolved circle the advance at [now] sets
    [hitStatus = 'miss'] and [hitTime = now] exactly when
    [now > hitWindowEnd + 50], and otherwise leaves the resolution as it
    is; so after a frame later than that bound no circle of the cell is
    unresolved.  A resolved circle is dropped by the filter exactly when
    [now - hitTime >= 100]: in a reachable session it is then absent from
    its cell after the frame, and present before that.  In the single-event
    scenario (cell 3, offset 0, start at 0, no press) with a frame every
    16 ms the circle is unresolved at 1248, Missed at 1264 and evicted at
    1376; with a frame every 50 ms it is unresolved at 1250, Missed at 1300
    and evicted at 1400; the grid is empty at 1500 in both.  For every
    frame period from 1 to 50 ms the circle is unresolved up to 1250,
    Missed at the first frame after 1250, which is no later than 1400, and
    the grid is empty at 1500. *)
Theorem miss_after_grace_then_eviction :
  (forall now c,
      hitStatus c = None ->
      (hitWindowEnd c + 50 < now ->
       hitStatus (advanceCircle now c) = Some miss
       /\ hitTime (advanceCircle now c) = Some now
       /\ hitRating (advanceCircle now c) = hitRating c
       /\ size (advanceCircle now c) = size c)
      /\ (now <= hitWindowEnd c + 50 ->
          hitStatus (advanceCircle now c) = None
          /\ hitTime (advanceCircle now c) = hitTime c
          /\ hitRating (advanceCircle now c) = hitRating c
          /\ size (advanceCircle now c) = growth now c))
  /\ (forall now cell,
         (forall c, In c (circles cell) -> hitWindowEnd c + 50 < now) ->
         forall c', In c' (circles (animateCell now cell)) ->
                    hitStatus c' <> None)
  /\ (forall now c th,
         hitStatus c <> None -> hitTime c = Some th ->
         (keepCircle now (advanceCircle now c) = false
          <-> 100 <= now - th))
  /\ (forall track t s log now cell c th,
         Reachable track t s log ->
         In cell (cells s) -> In c (circles cell) -> hitTime c = Some th ->
         (100 <= now - th ->
          forall c', In c' (circles (animateCell now cell)) ->
                     id c' <> id c)
         /\ (now - th < 100 ->
             In (advanceCircle now c) (circles (animateCell now cell))))
  /\ resolutionsAt 3 (singleEventRun 16 1248) = [(None, None, None)]
  /\ resolutionsAt 3 (singleEventRun 16 1264) = [(Some miss, Some 1264, None)]
  /\ resolutionsAt 3 (singleEventRun 16 1360) = [(Some miss, Some 1264, None)]
  /\ cells (singleEventRun 16 1376) = emptyCells
  /\ cells (singleEventRun 16 1500) = emptyCells
  /\ resolutionsAt 3 (singleEventRun 50 1250) = [(None, None, None)]
  /\ resolutionsAt 3 (singleEventRun 50 1300) = [(Some miss, Some 1300, None)]
  /\ resolutionsAt 3 (singleEventRun 50 1350) = [(Some miss, Some 1300, None)]
  /\ cells (singleEventRun 50 1400) = emptyCells
  /\ cells (singleEventRun 50 1500) = emptyCells
  /\ Forall
       (fun period =>
          let missedAt := firstFrameAfter 1250 period in
          missedAt <= 1400
          /\ resolutionsAt 3 (singleEventRun period 1250)
             = [(None, None, None)]
          /\ resolutionsAt 3 (singleEventRun period missedAt)
             = [(Some miss, Some missedAt, None)]
          /\ cells (singleEventRun period 1500) = emptyCells)
       (List.map Z.of_nat (seq 1 50)).
Proof.
  split; [exact advanceCircle_unresolved|].
  split; [exact animateCell_all_resolved|].
  split; [exact keepCircle_resolved|].
  split;
    [|do 10 (split; [vm_compute; reflexivity|]);
      repeat (apply List.Forall_cons;
              [cbv zeta; split; [vm_compute; discriminate|];
               do 2 (split; [vm_compute; reflexivity|]);
               vm_compute; reflexivity|]);
      apply List.Forall_nil].
  intros track t s log now cell c th Hreach Hcell Hc Hth.
  apply Reachable_ok in Hreach as [[_ Hcells _ _] _].
  rewrite List.Forall_forall in Hcells.
  destruct (Hcells cell Hcell) as [Hnd Heach _].
  rewrite List.Forall_forall in Heach.
  destruct (Heach c Hc) as [_ _ _ _ _ _ Hres _].
  assert (hitStatus c <> None) as Hs.
  { intros Hs. apply Hres in Hs. congruence. }
  pose proof (keepCircle_resolved now c th Hs Hth) as Hkeep.
  unfold HIT_FEEDBACK_DURATION in Hkeep. split.
  - intros Hold c' Hc' Hid. cbn [animateCell circles] in Hc'.
    apply filter_In in Hc' as [Hc' Hkept].
    apply in_map_iff in Hc' as (c1 & <- & Hc1).
    rewrite id_advanceCircle in Hid.
    assert (c1 = c) as -> by now apply (NoDup_map_eq id (circles cell)).
    apply Hkeep in Hold. congruence.
  - intros Hyoung. cbn [animateCell circles]. apply filter_In.
    split; [now apply in_map|].
    destruct (keepCircle now (advanceCircle now c)); [reflexivity|].
    assert (100 <= now - th) by now apply Hkeep. lia.
Qed.

(** ** The properties at concrete inputs *)

Lemma overlap_reachable :
  Reachable overlapTrack 950 overlapSession overlapLog.
Proof.
  exact (Reachable_run overlapTrack overlapInputs 0 initialSession []
           (Reachable_init _ 0) eq_refl).
Qed.

Lemma pressed_reachable :
  Reachable overlapTrack 960 pressedSession pressedLog.
Proof.
  exact (Reachable_run overlapTrack (overlapInputs ++ [CellPress 3 960]) 0
           initialSession [] (Reachable_init _ 0) eq_refl).
Qed.


Lemma overlap_sortedCircles :
  sortedCircles 960 (cellAt 3 overlapSession)
  = (firstCircle (cellAt 3 overlapSession), 960 # 1000)
      :: tl (sortedCircles 960 (cellAt 3 overlapSession)).
Proof. vm_compute. reflexivity. Qed.

Lemma pressed_cell3_resolved :
  In (cellAt 3 pressedSession) (cells pressedSession)
  /\ In (firstCircle (cellAt 3 pressedSession))
        (circles (cellAt 3 pressedSession))
  /\ hitStatus (firstCircle (cellAt 3 pressedSession)) = Some correct
  /\ hitTime (firstCircle (cellAt 3 pressedSession)) = Some 960
  /\ hitRating (firstCircle (cellAt 3 pressedSession)) = Some great.
Proof.
  split; [vm_compute; tauto|]. split; [vm_compute; tauto|].
  vm_compute. tauto.
Qed.



(** C3 at the overlapping session, and for an index that has fired. *)
Lemma each_index_fires_once_witness :
  Reachable overlapTrack 950 overlapSession overlapLog
  /\ List.NoDup (List.map firedIndex overlapLog)
  /\ (0%nat ∈ ({[0%nat]} : gset nat)
      /\ spawnItem sampleViewport 5 5 (mkSpawnState {[0%nat]} emptyCells [])
                   0 (mkTrackItem 4 0)
         = mkSpawnState {[0%nat]} emptyCells []).
Proof.
  pose proof each_index_fires_once as [Hrun Hskip].
  destruct (Hrun overlapTrack 950 overlapSession overlapLog overlap_reachable)
    as [Honce _].
  assert (0%nat ∈ ({[0%nat]} : gset nat)) as Hin by set_solver.
  exact (conj overlap_reachable
           (conj Honce
              (conj Hin
                 (Hskip sampleViewport 5 5
                    (mkSpawnState {[0%nat]} emptyCells []) 0%nat
                    (mkTrackItem 4 0) Hin)))).
Defined.

(** C4 at the session in which the first circle of cell 3 was hit at 960,
    over the frame at 970. *)
Lemma resolution_is_final_witness :
  (hitStatus (firstCircle (cellAt 3 pressedSession)) <> None
   /\ logicalState (advanceCircle 970 (firstCircle (cellAt 3 pressedSession)))
      = logicalState (firstCircle (cellAt 3 pressedSession)))
  /\ hitStatus (firstCircle (cellAt 3 overlapSession)) = None
  /\ (Reachable overlapTrack 960 pressedSession pressedLog
      /\ 960 <= 970 /\ 970 <= 970
      /\ Forall2
           (fun cell cell' =>
              index cell' = index cell
              /\ forall c c',
                  In c (circles cell) -> hitStatus c <> None ->
                  In c' (circles cell') -> id c' = id c ->
                  logicalState c' = logicalState c)
           (cells pressedSession)
           (cells (fst (step overlapTrack
                          (AnimationFrame sampleViewport 970 970)
                          pressedSession pressedLog)))).
Proof.
  pose proof resolution_is_final as (Hadvance & Hwinner & Hstep).
  assert (hitStatus (firstCircle (cellAt 3 pressedSession)) <> None) as Hres.
  { destruct pressed_cell3_resolved as (_ & _ & Hs & _). rewrite Hs.
    discriminate. }
  assert (960 <= 970) as Hin by lia.
  assert (970 <= 970) as Hout by lia.
  split; [exact (conj Hres (Hadvance 970 _ Hres))|].
  split; [exact (Hwinner 960 _ _ _ _ overlap_sortedCircles)|].
  exact (conj pressed_reachable
           (conj Hin
              (conj Hout
                 (Hstep overlapTrack 960 pressedSession pressedLog
                    (AnimationFrame sampleViewport 970 970)
                    pressed_reachable Hin Hout)))).
Defined.

(** C6 at the circles of cell 3: the unresolved one advanced at 1251, and
    the one hit at 960 over the frame at 1060. *)
Lemma miss_after_grace_then_eviction_witness :
  (hitStatus (firstCircle (cellAt 3 overlapSession)) = None
   /\ hitWindowEnd (firstCircle (cellAt 3 overlapSession)) + 50 < 1251
   /\ hitStatus (advanceCircle 1251 (firstCircle (cellAt 3 overlapSession)))
      = Some miss
   /\ hitTime (advanceCircle 1251 (firstCircle (cellAt 3 overlapSession)))
      = Some 1251)
  /\ ((forall c, In c (circles (cellAt 3 overlapSession)) ->
                 hitWindowEnd c + 50 < 1400)
      /\ forall c',
          In c' (circles (animateCell 1400 (cellAt 3 overlapSession))) ->
          hitStatus c' <> None)
  /\ (hitStatus (firstCircle (cellAt 3 pressedSession)) <> None
      /\ hitTime (firstCircle (cellAt 3 pressedSession)) = Some 960
      /\ keepCircle 1060
           (advanceCircle 1060 (firstCircle (cellAt 3 pressedSession)))
         = false)
  /\ (Reachable overlapTrack 960 pressedSession pressedLog
      /\ 100 <= 1060 - 960
      /\ forall c',
          In c' (circles (animateCell 1060 (cellAt 3 pressedSession))) ->
          id c' <> id (firstCircle (cellAt 3 pressedSession))).
Proof.
  pose proof miss_after_grace_then_eviction
    as (Hadvance & Hall & Hkeep & Hcell & _).
  assert (hitStatus (firstCircle (cellAt 3 overlapSession)) = None) as Hs
      by (vm_compute; reflexivity).
  assert (hitWindowEnd (firstCircle (cellAt 3 overlapSession)) + 50 < 1251)
    as Hlate by (vm_compute; reflexivity).
  assert (forall c, In c (circles (cellAt 3 overlapSession)) ->
                    hitWindowEnd c + 50 < 1400) as Hlate'.
  { intros c Hc. vm_compute in Hc.
    destruct Hc as [<-|[<-|[]]]; vm_compute; reflexivity. }
  destruct pressed_cell3_resolved as (Hcell3 & Hc3 & Hstatus & Hth & _).
  assert (hitStatus (firstCircle (cellAt 3 pressedSession)) <> None) as Hres.
  { rewrite Hstatus. discriminate. }
  assert (100 <= 1060 - 960) as Hold by lia.
  split.
  { destruct (proj1 (Hadvance 1251 _ Hs) Hlate) as (Hm & Ht & _).
    exact (conj Hs (conj Hlate (conj Hm Ht))). }
  split; [exact (conj Hlate' (Hall 1400 _ Hlate'))|].
  split.
  { exact (conj Hres
             (conj Hth (proj2 (Hkeep 1060 _ 960 Hres Hth) Hold))). }
  exact (conj pressed_reachable
           (conj Hold
              (proj1 (Hcell overlapTrack 960 pressedSession pressedLog 1060
                        (cellAt 3 pressedSession)
                        (firstCircle (cellAt 3 pressedSession)) 960
                        pressed_reachable Hcell3 Hc3 Hth) Hold))).
Defined.

Lemma arrowSet_up_left :
  arrowSet ["ArrowUp"; "ArrowLeft"]%string
  /\ arrowSet ["ArrowLeft"; "ArrowUp"]%string.
Proof.
  split; (split; [|repeat constructor]);
    (constructor; [intros [H|[]]; discriminate|]);
    (constructor; [intros []|constructor]).
Qed.

(** C7 (amended) at the first key-down of Up, at the release of Left
    while Up stays held, and at the two orders of Up and Left. *)
Lemma press_edge_debounce_witness :
  (snd (handleKeyDown "ArrowUp" initialKeys) = Some 1
   /\ getCellIndexFromKeys (JsSet.add (pressedKeys initialKeys) "ArrowUp")
      = Some 1
   /\ lastTriggeredKeys (fst (handleKeyDown "ArrowUp" initialKeys))
      = JsSet.add (pressedKeys initialKeys) "ArrowUp")
  /\ (isArrowKey "ArrowLeft" = true
      /\ keySignature
           (lastTriggeredKeys
              (handleKeyUp "ArrowLeft"
                 (mkKeyState ["ArrowUp"; "ArrowLeft"]%string
                             ["ArrowUp"; "ArrowLeft"]%string)))
         = keySignature
             (pressedKeys
                (handleKeyUp "ArrowLeft"
                   (mkKeyState ["ArrowUp"; "ArrowLeft"]%string
                               ["ArrowUp"; "ArrowLeft"]%string))))
  /\ (arrowSet ["ArrowUp"; "ArrowLeft"]%string
      /\ arrowSet ["ArrowLeft"; "ArrowUp"]%string
      /\ (keySignature ["ArrowUp"; "ArrowLeft"]%string
          = keySignature ["ArrowLeft"; "ArrowUp"]%string
          <-> forall k, JsSet.has ["ArrowUp"; "ArrowLeft"]%string k
                        = JsSet.has ["ArrowLeft"; "ArrowUp"]%string k))
  /\ (KeysReachable (fst (handleKey (KeyDown "ArrowUp") initialKeys))
      /\ snd (handleKeyDown "ArrowUp"
                (fst (handleKey (KeyDown "ArrowUp") initialKeys)))
         = if isArrowKey "ArrowUp"
              && negb (JsSet.has
                         (pressedKeys
                            (fst (handleKey (KeyDown "ArrowUp") initialKeys)))
                         "ArrowUp")
           then getCellIndexFromKeys
                  (pressedKeys
                     (fst (handleKey (KeyDown "ArrowUp") initialKeys))
                     ++ ["ArrowUp"%string])
           else None).
Proof.
  pose proof press_edge_debounce
    as (_ & Hrecord & Hrelease & Horder & Hreach & _).
  assert (snd (handleKeyDown "ArrowUp" initialKeys) = Some 1) as Hfire
      by reflexivity.
  assert (isArrowKey "ArrowLeft" = true) as Hleft by reflexivity.
  destruct arrowSet_up_left as [Hs Hs'].
  pose proof (KeysReachable_step initialKeys (KeyDown "ArrowUp")
                KeysReachable_init) as Hks.
  split; [exact (conj Hfire (Hrecord "ArrowUp"%string initialKeys 1 Hfire))|].
  split; [exact (conj Hleft (proj2 (Hrelease "ArrowLeft"%string _ Hleft)))|].
  split; [exact (conj Hs (conj Hs' (Horder _ _ Hs Hs')))|].
  exact (conj Hks (Hreach _ "ArrowUp"%string Hks)).
Defined.





(** * Further properties *)

(** ** The key resolver and the held set *)

Lemma arrowSet_intro (keys : JsSet.t) :
  List.NoDup keys -> forallb isArrowKey keys = true -> arrowSet keys.
Proof.
  intros Hnd Hall. split; [assumption|].
  apply List.Forall_forall. now apply forallb_forall.
Qed.

Lemma handleKeys_cons (e : KeyEvent) (rest : list KeyEvent) (ks : KeyState) :
  fst (handleKeys (e :: rest) ks)
  = fst (handleKeys rest (fst (handleKey e ks)))
  /\ snd (handleKeys (e :: rest) ks)
     = match snd (handleKey e ks) with
       | Some i => i :: snd (handleKeys rest (fst (handleKey e ks)))
       | None => snd (handleKeys rest (fst (handleKey e ks)))
       end.
Proof.
  cbn [handleKeys]. destruct (handleKey e ks) as [ks1 press]. cbn [fst snd].
  now destruct (handleKeys rest ks1).
Qed.

Lemma getCellIndexFromKeys_in_grid (keys : JsSet.t) (i : Z) :
  getCellIndexFromKeys keys = Some i -> 0 <= i <= 8 /\ i <> CENTER_INDEX.
Proof.
  unfold getCellIndexFromKeys, CENTER_INDEX.
  destruct (JsSet.has keys "ArrowUp"), (JsSet.has keys "ArrowDown"),
    (JsSet.has keys "ArrowLeft"), (JsSet.has keys "ArrowRight"); cbn;
    intros [= <-]; lia.
Qed.

(** X1. The key resolver only ever selects one of the eight outer cells,
    never the centre 4 and nothing outside 0..8; each of the eight cells is
    selected by some set of at most two arrow keys; so every press the
    keyboard handlers fire goes to an outer cell. *)
Theorem getCellIndexFromKeys_range :
  (forall keys i,
      getCellIndexFromKeys keys = Some i -> 0 <= i <= 8 /\ i <> CENTER_INDEX)
  /\ (forall i,
         0 <= i <= 8 -> i <> CENTER_INDEX ->
         exists keys,
           arrowSet keys /\ (length keys <= 2)%nat
           /\ getCellIndexFromKeys keys = Some i)
  /\ (forall events ks i,
         In i (snd (handleKeys events ks)) ->
         0 <= i <= 8 /\ i <> CENTER_INDEX).
Proof.
  split; [exact getCellIndexFromKeys_in_grid|]. split.
  - intros i Hi Hc. unfold CENTER_INDEX in Hc.
    assert (i = 0 \/ i = 1 \/ i = 2 \/ i = 3 \/ i = 5 \/ i = 6 \/ i = 7
            \/ i = 8) as Hcases by lia.
    assert (forall keys (j : Z),
               bool_decide (NoDup keys) = true ->
               forallb isArrowKey keys = true ->
               (length keys <=? 2)%nat = true ->
               getCellIndexFromKeys keys = Some j ->
               exists keys,
                 arrowSet keys /\ (length keys <= 2)%nat
                 /\ getCellIndexFromKeys keys = Some j) as Hex.
    { intros keys j Hnd Hall Hlen Hj. exists keys.
      split; [|split; [now apply Nat.leb_le|assumption]].
      apply arrowSet_intro; [|assumption].
      apply NoDup_ListNoDup. now apply bool_decide_eq_true in Hnd. }
    destruct Hcases as [-> | [-> | [-> | [-> | [-> | [-> | [-> | ->]]]]]]].
    + now apply (Hex ["ArrowUp"; "ArrowLeft"]%string).
    + now apply (Hex ["ArrowUp"]%string).
    + now apply (Hex ["ArrowUp"; "ArrowRight"]%string).
    + now apply (Hex ["ArrowLeft"]%string).
    + now apply (Hex ["ArrowRight"]%string).
    + now apply (Hex ["ArrowDown"; "ArrowLeft"]%string).
    + now apply (Hex ["ArrowDown"]%string).
    + now apply (Hex ["ArrowDown"; "ArrowRight"]%string).
  - intros events. induction events as [|e rest IH]; intros ks i Hin.
    + destruct Hin.
    + destruct (handleKeys_cons e rest ks) as [_ Hsnd]. rewrite Hsnd in Hin.
      destruct (snd (handleKey e ks)) as [j|] eqn:Hpress;
        [destruct Hin as [<-|Hin]|]; try now apply (IH _ _ Hin).
      destruct e as [key|key]; [|discriminate]. cbn [handleKey] in Hpress.
      unfold handleKeyDown in Hpress.
      destruct (negb (isArrowKey key)); [discriminate|].
      destruct (getCellIndexFromKeys _) as [targetIndex|] eqn:Hidx;
        [|discriminate].
      destruct (negb _); [|discriminate]. cbn in Hpress.
      injection Hpress as <-. now apply getCellIndexFromKeys_in_grid in Hidx.
Qed.

Lemma has_add_any (s : JsSet.t) (k key : string) :
  JsSet.has (JsSet.add s k) key = String.eqb key k || JsSet.has s key.
Proof.
  unfold JsSet.add. destruct (JsSet.has s k) eqn:Hk.
  - destruct (String.eqb_spec key k) as [->|_]; [now rewrite Hk|reflexivity].
  - rewrite has_app. apply orb_comm.
Qed.

Lemma has_delete_any (s : JsSet.t) (k key : string) :
  JsSet.has (JsSet.delete s k) key
  = negb (String.eqb key k) && JsSet.has s key.
Proof.
  unfold JsSet.delete, JsSet.has.
  induction s as [|k' s IH]; cbn; [now rewrite andb_false_r|].
  destruct (String.eqb_spec k k') as [<-|Hne]; cbn.
  - rewrite IH. destruct (String.eqb_spec key k); cbn; reflexivity.
  - rewrite IH. destruct (String.eqb_spec key k') as [->|_]; cbn; [|reflexivity].
    destruct (String.eqb_spec k' k) as [->|_]; [contradiction|reflexivity].
Qed.

Lemma pressedKeys_handleKeyDown (key : string) (ks : KeyState) :
  pressedKeys (fst (handleKeyDown key ks))
  = if isArrowKey key then JsSet.add (pressedKeys ks) key else pressedKeys ks.
Proof.
  unfold handleKeyDown. destruct (isArrowKey key); cbn [negb]; [|reflexivity].
  destruct (getCellIndexFromKeys _); [|reflexivity].
  now destruct (negb _).
Qed.

Lemma pressedKeys_handleKeyUp (key : string) (ks : KeyState) :
  pressedKeys (handleKeyUp key ks)
  = if isArrowKey key then JsSet.delete (pressedKeys ks) key
    else pressedKeys ks.
Proof.
  unfold handleKeyUp. destruct (isArrowKey key); cbn [negb]; [|reflexivity].
  destruct (_ =? 0)%nat; [reflexivity|]. now destruct (negb _).
Qed.

(** X2. After any sequence of key events the held set contains an arrow
    key exactly when the last event about that key was a key-down (or,
    without such an event, when it was held before); keys other than the
    four arrows never enter or leave it. *)
Theorem pressedKeys_tracks_held_keys (events : list KeyEvent) (ks : KeyState)
    (key : string) :
  JsSet.has (pressedKeys (fst (handleKeys events ks))) key
  = if isArrowKey key
    then heldAfter events key (JsSet.has (pressedKeys ks) key)
    else JsSet.has (pressedKeys ks) key.
Proof.
  revert ks. induction events as [|e rest IH]; intros ks.
  - destruct (isArrowKey key); reflexivity.
  - destruct (handleKeys_cons e rest ks) as [Hfst _]. rewrite Hfst, IH.
    unfold heldAfter. cbn [fold_left].
    destruct e as [k|k]; cbn [handleKey fst].
    + rewrite pressedKeys_handleKeyDown.
      destruct (isArrowKey k) eqn:Hk.
      * rewrite has_add_any.
        destruct (String.eqb_spec key k) as [->|_]; cbn [orb negb andb];
          [|reflexivity].
        now rewrite Hk.
      * destruct (String.eqb_spec key k) as [->|_]; [|reflexivity].
        now rewrite Hk.
    + rewrite pressedKeys_handleKeyUp.
      destruct (isArrowKey k) eqn:Hk.
      * rewrite has_delete_any.
        destruct (String.eqb_spec key k) as [->|_]; cbn [orb negb andb];
          [|reflexivity].
        now rewrite Hk.
      * destruct (String.eqb_spec key k) as [->|_]; [|reflexivity].
        now rewrite Hk.
Qed.

(** ** Completion check *)

Lemma fold_left_max_spec (l : list Z) (a : Z) :
  a <= fold_left Z.max l a
  /\ Forall (fun x => x <= fold_left Z.max l a) l
  /\ (fold_left Z.max l a = a \/ In (fold_left Z.max l a) l).
Proof.
  revert a. induction l as [|x l IH]; intros a; cbn.
  - repeat split; [lia|constructor|now left].
  - destruct (IH (Z.max a x)) as (Hge & Hall & Hin).
    split; [lia|]. split; [constructor; [lia|assumption]|].
    destruct Hin as [Heq|Hin]; [|right; now right].
    rewrite Heq. destruct (Z.max_spec a x) as [[_ ->]|[_ ->]];
      [right; now left|now left].
Qed.

Lemma lastSpawnTime_spec (first : TrackItem) (rest : list TrackItem) :
  (forall item, In item (first :: rest) ->
                spawnTime item <= lastSpawnTime first rest)
  /\ exists item, In item (first :: rest)
                  /\ spawnTime item = lastSpawnTime first rest.
Proof.
  unfold lastSpawnTime.
  destruct (fold_left_max_spec (List.map spawnTime rest) (spawnTime first))
    as (Hge & Hall & Hin).
  split.
  - intros item [<-|Hitem]; [assumption|].
    rewrite List.Forall_forall in Hall. apply Hall. now apply in_map.
  - destruct Hin as [Heq|Hin].
    + exists first. split; [now left|now symmetry].
    + apply in_map_iff in Hin as (item & Heq & Hitem).
      exists item. split; [now right|assumption].
Qed.

(** X3. The completion check never touches the grid and does nothing
    unless a run is in progress.  During a run it ends the run (not
    playing, no start time, fired set cleared) exactly when the elapsed
    time exceeds [spawnTime + 1000 + 200 + 100] for every event of the
    track, which on an empty track is at once; while some event is not that
    old it leaves the session as it is. *)
Theorem checkTrackFinished_after_every_event (track : Track) (now : Z)
    (s : Session) :
  cells (checkTrackFinished track now s) = cells s
  /\ (isPlaying s = false \/ trackStartTime s = None ->
      checkTrackFinished track now s = s)
  /\ (forall start,
         isPlaying s = true -> trackStartTime s = Some start ->
         ((forall item,
              In item track ->
              spawnTime item + GROWTH_DURATION + HIT_WINDOW_DURATION
              + HIT_FEEDBACK_DURATION < now - start) ->
          checkTrackFinished track now s = stopped s)
         /\ ((exists item,
                 In item track
                 /\ now - start <= spawnTime item + GROWTH_DURATION
                                   + HIT_WINDOW_DURATION
                                   + HIT_FEEDBACK_DURATION) ->
             checkTrackFinished track now s = s)).
Proof.
  split; [apply cells_checkTrackFinished|]. split.
  - unfold checkTrackFinished. intros [->| ->]; [reflexivity|].
    now destruct (isPlaying s).
  - intros start Hplay Hstart. unfold checkTrackFinished.
    rewrite Hplay, Hstart. cbn [negb].
    destruct track as [|first rest].
    { split; [reflexivity|]. intros (item & [] & _). }
    destruct (lastSpawnTime_spec first rest) as [Hmax (last & Hlast & Heq)].
    destruct (Z.ltb_spec (lastSpawnTime first rest + GROWTH_DURATION
                          + HIT_WINDOW_DURATION + HIT_FEEDBACK_DURATION)
                (now - start)) as [Hlate|Hearly]; split; trivial.
    + intros (item & Hitem & Hyoung). specialize (Hmax item Hitem). lia.
    + intros Hall. specialize (Hall last Hlast). lia.
Qed.

(** ** What a frame fires *)

Lemma spawnItem_exact (vp : Viewport) (now elapsed : Z) (track : Track)
    (spawned0 : gset nat) (st : SpawnState) (i : nat) (item : TrackItem) :
  nth_error track i = Some item ->
  spawnExactOk track elapsed spawned0 i st ->
  spawnExactOk track elapsed spawned0 (Datatypes.S i)
               (spawnItem vp now elapsed st i item).
Proof.
  intros Hitem (Hset & Hlog & Hitems).
  assert (dueAt track elapsed i = (spawnTime item - 10 <=? elapsed)) as Hdue.
  { unfold dueAt. now rewrite Hitem. }
  assert (i ∈ sp_spawned st <-> i ∈ spawned0) as Hi.
  { rewrite Hset. split; [intros [?|[? _]]; [assumption|lia]|now left]. }
  assert (List.filter (fun k => negb (bool_decide (k ∈ spawned0))
                                && dueAt track elapsed k)
                      (seq 0 (Datatypes.S i))
          = List.filter (fun k => negb (bool_decide (k ∈ spawned0))
                                  && dueAt track elapsed k) (seq 0 i)
              ++ (if negb (bool_decide (i ∈ spawned0))
                     && dueAt track elapsed i then [i] else [])) as Hseq.
  { rewrite seq_S, List.filter_app. cbn [List.filter Nat.add].
    now destruct (negb _ && _). }
  unfold spawnItem.
  destruct (bool_decide_reflect (i ∈ sp_spawned st)) as [Hspawned|Hspawned].
  { split; [|split; [|assumption]].
    - intros k. rewrite Hset. split; [intros [?|[? ?]]; [now left|right]|].
      + split; [lia|assumption].
      + intros [?|[Hk Hd]]; [now left|].
        destruct (Nat.eq_dec k i) as [->|Hne];
          [left; now apply Hi|right; split; [lia|assumption]].
    - rewrite Hseq, Hlog.
      rewrite (bool_decide_eq_true_2 (i ∈ spawned0)) by now apply Hi.
      cbn. now rewrite app_nil_r. }
  assert (i ∉ spawned0) as Hnew by (intros H; now apply Hspawned, Hi).
  destruct (spawnTime item - 10 <=? elapsed) eqn:Hd.
  - assert (forall grid created,
               spawnExactOk track elapsed spawned0 (Datatypes.S i)
                 (mkSpawnState ({[i]} ∪ sp_spawned st) grid
                    (sp_log st ++ [mkFired i item created]))) as Hfire.
    { intros grid created. split; [|split]; cbn [sp_spawned sp_log].
      - intros k. rewrite elem_of_union, elem_of_singleton, Hset.
        split.
        + intros [->|[?|[? ?]]];
            [right; split; [lia|congruence]|now left|right; split; [lia|assumption]].
        + intros [?|[Hk Hdk]]; [right; now left|].
          destruct (Nat.eq_dec k i) as [->|Hne];
            [now left|right; right; split; [lia|assumption]].
      - rewrite map_app, Hseq, Hlog, Hdue.
        rewrite (bool_decide_eq_false_2 (i ∈ spawned0)) by assumption.
        reflexivity.
      - apply Forall_app. split; [assumption|]. now repeat constructor. }
    destruct (invalidCellIndex _); apply Hfire.
  - split; [|split; [|assumption]].
    + intros k. rewrite Hset. split; [intros [?|[? ?]]; [now left|right]|].
      * split; [lia|assumption].
      * intros [?|[Hk Hdk]]; [now left|].
        destruct (Nat.eq_dec k i) as [->|Hne]; [congruence|].
        right. split; [lia|assumption].
    + rewrite Hseq, Hlog, Hdue, andb_false_r. now rewrite app_nil_r.
Qed.

Lemma dueAt_in_track (track : Track) (elapsed : Z) (k : nat) :
  dueAt track elapsed k = true -> (k < length track)%nat.
Proof.
  unfold dueAt. destruct (nth_error track k) eqn:Hk; [|discriminate].
  intros _. apply nth_error_Some. congruence.
Qed.

(** X4. A frame during a run fires exactly the events that are due
    ([elapsed >= spawnTime - 10]) and have not fired before, in track
    order, each logged with its own track item; afterwards the fired set
    holds the indexes it held before and the indexes of all due events. *)
Theorem spawnFromTrack_fires_due_events (vp : Viewport) (track : Track)
    (now : Z) (s : Session) (start : Z) :
  isPlaying s = true -> trackStartTime s = Some start ->
  List.map firedIndex (snd (spawnFromTrack vp track now s))
  = List.filter (fun k => negb (bool_decide (k ∈ spawnedIndices s))
                          && dueAt track (now - start) k)
                (seq 0 (length track))
  /\ (forall k,
         k ∈ spawnedIndices (fst (spawnFromTrack vp track now s))
         <-> k ∈ spawnedIndices s \/ dueAt track (now - start) k = true)
  /\ Forall (fun f => nth_error track (firedIndex f) = Some (firedItem f))
            (snd (spawnFromTrack vp track now s)).
Proof.
  intros Hplay Hstart. unfold spawnFromTrack. rewrite Hplay, Hstart.
  cbn [negb fst snd spawnedIndices].
  pose proof (forEachFrom_invariant (spawnItem vp now (now - start))
                (fun i st => spawnExactOk track (now - start)
                               (spawnedIndices s) i st)
                track 0%nat
                (mkSpawnState (spawnedIndices s) (cells s) [])) as Hloop.
  cbv beta in Hloop. destruct Hloop as (Hset & Hlog & Hitems).
  - split; [|split; [reflexivity|constructor]]. cbn [sp_spawned].
    intros k. split; [now left|]. intros [?|[? _]]; [assumption|lia].
  - intros k item st' Hk. now apply spawnItem_exact.
  - split; [assumption|]. split; [|assumption].
    intros k. rewrite Hset. cbn [Nat.add].
    split; [intros [?|[_ ?]]; [now left|now right]|].
    intros [?|Hd]; [now left|right].
    split; [now apply (dueAt_in_track track (now - start))|assumption].
Qed.

(** ** Sessions without a run in progress *)

Lemma spawnFromTrack_idle (vp : Viewport) (track : Track) (now : Z)
    (s : Session) :
  trackStartTime s = None \/ isPlaying s = false ->
  spawnFromTrack vp track now s = (s, []).
Proof.
  unfold spawnFromTrack. intros [H|H]; rewrite H; [|reflexivity].
  now destruct (negb _).
Qed.

Lemma checkTrackFinished_idle (track : Track) (now : Z) (s : Session) :
  trackStartTime s = None \/ isPlaying s = false ->
  checkTrackFinished track now s = s.
Proof.
  unfold checkTrackFinished. intros [H|H]; rewrite H; [|reflexivity].
  now destruct (negb _).
Qed.

Lemma ids_pressCell (now : Z) (cell : GridCell) :
  List.map id (circles (pressCell now cell)) = List.map id (circles cell).
Proof.
  destruct (sortedCircles now cell) as [|[w sz] rest] eqn:Hsorted.
  - now rewrite (pressCell_no_winner _ _ Hsorted).
  - rewrite (pressCell_winner _ _ _ _ _ Hsorted). cbn [circles].
    rewrite map_map. apply map_ext. intros c. now destruct (bool_decide _).
Qed.

Lemma shrinks_animateCell (now : Z) (cell : GridCell) :
  shrinks cell (animateCell now cell).
Proof.
  split; [reflexivity|]. cbn [animateCell circles]. intros i Hi.
  apply in_map_iff in Hi as (c' & <- & Hc').
  apply filter_In in Hc' as [Hc' _].
  apply in_map_iff in Hc' as (c & <- & Hc).
  rewrite id_advanceCircle. now apply in_map.
Qed.

Lemma Forall2_shrinks_trans (l1 l2 l3 : list GridCell) :
  Forall2 shrinks l1 l2 -> Forall2 shrinks l2 l3 -> Forall2 shrinks l1 l3.
Proof.
  intros H12. revert l3. induction H12 as [|a b l1 l2 [Hi Hab] _ IH];
    intros l3 H23; inversion H23 as [|? c ? l3' [Hi' Hbc] H23']; subst;
    constructor.
  - split; [congruence|]. intros x Hx. now apply Hab, Hbc.
  - now apply IH.
Qed.

Lemma idle_step (track : Track) (i : Input) (s : Session) (log : list Fired) :
  trackStartTime s = None \/ isPlaying s = false ->
  (forall now, i <> StartTrack now) ->
  snd (step track i s log) = log
  /\ isPlaying (fst (step track i s log)) = isPlaying s
  /\ trackStartTime (fst (step track i s log)) = trackStartTime s
  /\ spawnedIndices (fst (step track i s log)) = spawnedIndices s
  /\ Forall2 shrinks (cells s) (cells (fst (step track i s log))).
Proof.
  intros Hidle Hrun. destruct i as [now|vp nowSpawn now|ci now|now].
  - now destruct (Hrun now).
  - cbn [step]. unfold animate.
    rewrite (spawnFromTrack_idle vp track nowSpawn s Hidle).
    cbn [fst snd cells isPlaying trackStartTime spawnedIndices].
    rewrite app_nil_r. repeat split.
    apply Forall2_map_same. intros cell _. apply shrinks_animateCell.
  - cbn [step fst snd cells isPlaying trackStartTime spawnedIndices].
    repeat split. apply Forall2_map_same. intros cell _.
    destruct (negb _); (split; [|intros x Hx]).
    + reflexivity.
    + exact Hx.
    + apply index_pressCell.
    + now rewrite ids_pressCell in Hx.
  - cbn [step fst snd]. rewrite (checkTrackFinished_idle track now s Hidle).
    repeat split. apply Forall2_same. intros cell _.
    split; [reflexivity|apply incl_refl].
Qed.

(** X5. While no run is in progress (before the first start and after the
    completion check has ended a run) frames, presses and completion checks
    fire nothing and add no circle: the log, the fired set and the run
    flags stay as they are, and every cell only keeps or loses circles. *)
Theorem idle_session_never_spawns (track : Track) (inputs : list Input)
    (s : Session) (log : list Fired) :
  trackStartTime s = None \/ isPlaying s = false ->
  Forall (fun i => forall now, i <> StartTrack now) inputs ->
  snd (run track inputs s log) = log
  /\ isPlaying (fst (run track inputs s log)) = isPlaying s
  /\ trackStartTime (fst (run track inputs s log)) = trackStartTime s
  /\ spawnedIndices (fst (run track inputs s log)) = spawnedIndices s
  /\ Forall2 shrinks (cells s) (cells (fst (run track inputs s log))).
Proof.
  revert s log. induction inputs as [|i rest IH]; intros s log Hidle Hrun.
  - cbn. repeat split. apply Forall2_same. intros cell _.
    split; [reflexivity|apply incl_refl].
  - inversion Hrun as [|? ? Hi Hrest]; subst.
    destruct (idle_step track i s log Hidle Hi)
      as (Hlog & Hplay & Hstart & Hspawned & Hcells).
    cbn [run]. destruct (step track i s log) as [s1 log1].
    cbn [fst snd] in *. subst log1.
    destruct (IH s1 log) as (Hlog' & Hplay' & Hstart' & Hspawned' & Hcells');
      [rewrite Hstart, Hplay; exact Hidle|assumption|].
    repeat split; try congruence.
    now apply (Forall2_shrinks_trans _ (cells s1)).
Qed.

(** ** Records and placement of the circles *)

Lemma recordOk_mono (t t' : Z) (c : Circle) :
  t <= t' -> recordOk t c -> recordOk t' c.
Proof.
  unfold recordOk. intros Ht. destruct (hitStatus c) as [[| |]|]; trivial.
  - intros (th & Hth & Hwin & Hle & Hrest). exists th.
    repeat split; try tauto; lia.
  - intros (Hr & th & Hth & Hlate & Hle). split; [assumption|].
    exists th. repeat split; trivial. lia.
Qed.

Lemma recordOk_advance (t now : Z) (c : Circle) :
  t <= now -> recordOk t c -> recordOk now (advanceCircle now c).
Proof.
  intros Ht Hok. apply (recordOk_mono _ _ _ Ht) in Hok. revert Hok.
  unfold recordOk, advanceCircle.
  destruct (hitStatus c) as [[| |]|] eqn:Hs; cbn; rewrite ?Hs; trivial.
  - intros (th & Hth & Hwin & Hle & Hr & Hsz & _). exists th.
    repeat split; trivial; lia.
  - intros Hr. destruct (Z.ltb_spec (hitWindowEnd c + 50) now); cbn.
    + split; [assumption|]. exists now. repeat split; [assumption|lia].
    + assumption.
Qed.

Lemma recordOk_markHit (now : Z) (w : Circle) :
  eligible now w ->
  recordOk now (markHit now (calculateHitRating now (perfectTime w))
                        (growth now w) (targetPosition w) w).
Proof.
  intros [_ Hwin]. unfold recordOk. cbn. exists now.
  repeat split; trivial; lia.
Qed.

Lemma cellRecordOk_animate (t now : Z) (cell : GridCell) :
  t <= now -> cellRecordOk t cell -> cellRecordOk now (animateCell now cell).
Proof.
  unfold cellRecordOk. intros Ht Hok. cbn [animateCell circles index].
  rewrite List.Forall_forall in Hok. apply List.Forall_forall.
  intros c' Hc'. apply filter_In in Hc' as [Hc' _].
  apply in_map_iff in Hc' as (c & <- & Hc). destruct (Hok c Hc) as [Hr Hi].
  split; [now apply (recordOk_advance t)|].
  rewrite <- Hi. unfold advanceCircle. destruct (hitStatus c); [reflexivity|].
  cbv zeta. now destruct (_ <? now).
Qed.

Lemma cellRecordOk_mono (t t' : Z) (cell : GridCell) :
  t <= t' -> cellRecordOk t cell -> cellRecordOk t' cell.
Proof.
  unfold cellRecordOk. intros Ht. apply List.Forall_impl.
  intros c [Hr Hi]. split; [now apply (recordOk_mono t)|assumption].
Qed.

Lemma cellRecordOk_press (t now : Z) (cell : GridCell) :
  t <= now -> List.NoDup (List.map id (circles cell)) ->
  cellRecordOk t cell -> cellRecordOk now (pressCell now cell).
Proof.
  intros Ht Hnd Hok. apply (cellRecordOk_mono _ _ _ Ht) in Hok.
  destruct (sortedCircles now cell) as [|[w sz] rest] eqn:Hsorted.
  - now rewrite (pressCell_no_winner _ _ Hsorted).
  - rewrite (pressCell_winner _ _ _ _ _ Hsorted).
    destruct (sortedCircles_winner _ _ _ _ _ Hsorted)
      as (l1 & l2 & Hcell & -> & Hw & _).
    unfold cellRecordOk in *. cbn [circles index]. rewrite Hcell in *.
    rewrite map_update_unique by assumption.
    apply Forall_app in Hok as [H1 H2].
    inversion H2 as [|? ? [_ Hi] H2']; subst.
    apply Forall_app. split; [assumption|]. constructor; [|assumption].
    split; [now apply recordOk_markHit|exact Hi].
Qed.

Lemma spawnItem_record (vp : Viewport) (now elapsed : Z) (st : SpawnState)
    (k : nat) (item : TrackItem) :
  Forall (cellRecordOk now) (sp_cells st) ->
  Forall (cellRecordOk now) (sp_cells (spawnItem vp now elapsed st k item)).
Proof.
  intros Hok. unfold spawnItem. case_bool_decide; [assumption|].
  destruct (_ <=? elapsed); [|assumption].
  destruct (invalidCellIndex _); cbn [sp_cells]; [assumption|].
  unfold insertCircle. apply Forall_map.
  eapply List.Forall_impl; [|exact Hok]. intros cell Hcell.
  destruct (Z.eqb_spec (index cell) (cellIndex (newCircle vp now k item)))
    as [Heq|_]; [|assumption].
  unfold cellRecordOk in *. cbn [circles index].
  apply Forall_app. split; [assumption|]. constructor; [|constructor].
  split; [reflexivity|now symmetry].
Qed.

Lemma spawnFromTrack_record (vp : Viewport) (track : Track) (now : Z)
    (s : Session) :
  Forall (cellRecordOk now) (cells s) ->
  Forall (cellRecordOk now) (cells (fst (spawnFromTrack vp track now s))).
Proof.
  intros Hok. unfold spawnFromTrack.
  destruct (isPlaying s); cbn [negb fst]; [|assumption].
  destruct (trackStartTime s) as [start|]; cbn [fst cells]; [|assumption].
  apply (forEachFrom_invariant (spawnItem vp now (now - start))
           (fun _ st => Forall (cellRecordOk now) (sp_cells st)) track 0%nat).
  - assumption.
  - intros k item st' _. apply spawnItem_record.
Qed.

Lemma Reachable_record (track : Track) (t : Z) (s : Session)
    (log : list Fired) :
  Reachable track t s log -> Forall (cellRecordOk t) (cells s).
Proof.
  induction 1 as [t|t s log i Hreach IH Hin Hout].
  - cbn. repeat constructor.
  - apply Reachable_ok in Hreach as [[_ Hcells _ _] _].
    destruct i as [now|vp nowSpawn now|ci now|now];
      cbn [clockIn clockOut] in *.
    + cbn. repeat constructor.
    + rewrite cells_step_frame. apply Forall_map.
      assert (Forall (cellRecordOk nowSpawn) (cells s)) as IH'.
      { eapply List.Forall_impl; [|exact IH]. intros cell.
        now apply cellRecordOk_mono. }
      apply (spawnFromTrack_record vp track nowSpawn) in IH'.
      eapply List.Forall_impl; [|exact IH']. intros cell.
      now apply cellRecordOk_animate.
    + cbn [step fst cells]. unfold handleCellPress. apply Forall_map.
      rewrite List.Forall_forall in Hcells, IH. apply List.Forall_forall.
      intros cell Hcell. destruct (negb _).
      * apply (cellRecordOk_mono t); auto.
      * apply (cellRecordOk_press t); auto. now destruct (Hcells cell Hcell).
    + cbn [step fst]. rewrite cells_checkTrackFinished.
      eapply List.Forall_impl; [|exact IH]. intros cell.
      now apply cellRecordOk_mono.
Qed.

Lemma Reachable_cellIndex_valid (track : Track) (t : Z) (s : Session)
    (log : list Fired) (cell : GridCell) (c : Circle) :
  Reachable track t s log -> In cell (cells s) -> In c (circles cell) ->
  cellIndex c = id_cellIndex (id c)
  /\ 0 <= cellIndex c <= 8 /\ cellIndex c <> CENTER_INDEX.
Proof.
  intros Hreach Hcell Hc.
  apply Reachable_ok in Hreach as [[_ Hcells _ Hfired] _].
  rewrite List.Forall_forall in Hcells, Hfired.
  destruct (Hcells cell Hcell) as [_ Heach Hcreated].
  rewrite List.Forall_forall in Heach, Hcreated.
  destruct (Heach c Hc) as [_ _ _ _ _ _ _ Hci]. split; [assumption|].
  specialize (Hcreated c Hc). unfold createdIds in Hcreated.
  apply in_flat_map in Hcreated as (f & Hf & Hin).
  destruct (Hfired f Hf) as [_ Hfc].
  destruct (firedCircle f) as [c0|]; [|contradiction].
  destruct Hin as [Hid|[]]. destruct Hfc as [Hvalid Hid0].
  rewrite Hci, <- Hid, Hid0. cbn.
  assert (~ (itemCellIndex (firedItem f) = CENTER_INDEX
             \/ itemCellIndex (firedItem f) < 0
             \/ 8 < itemCellIndex (firedItem f))) as Hnot.
  { rewrite <- invalidCellIndex_iff. congruence. }
  unfold CENTER_INDEX in *. lia.
Qed.

Lemma NoDup_grid_ids (grid : list GridCell) :
  List.NoDup (List.map index grid) ->
  (forall cell, In cell grid -> List.NoDup (List.map id (circles cell))) ->
  (forall cell c, In cell grid -> In c (circles cell) ->
                  id_cellIndex (id c) = index cell) ->
  List.NoDup (List.map id (flat_map circles grid)).
Proof.
  induction grid as [|cell grid IH]; intros Hidx Hnd Hplace; [constructor|].
  cbn [flat_map]. rewrite map_app. cbn in Hidx.
  inversion Hidx as [|? ? Hnot Hidx']; subst.
  apply NoDup_ListNoDup, NoDup_app. repeat split.
  - apply NoDup_ListNoDup, Hnd. now left.
  - intros x Hx Hx'. apply list_elem_of_In in Hx, Hx'.
    apply in_map_iff in Hx as (c & <- & Hc).
    apply in_map_iff in Hx' as (c' & Heq & Hc').
    apply in_flat_map in Hc' as (cell' & Hcell' & Hc').
    apply Hnot. apply in_map_iff. exists cell'. split; [|assumption].
    rewrite <- (Hplace cell' c') by (trivial; now right).
    rewrite Heq. apply Hplace; [now left|assumption].
  - apply NoDup_ListNoDup, IH; trivial.
    + intros c Hc. apply Hnd. now right.
    + intros c0 c Hc0. apply Hplace. now right.
Qed.

(** X6. In every reachable session a circle sits in the cell whose index
    is its [cellIndex] (the first component of its id), the centre cell is
    empty, no two circles of the grid share an id, and a press on the
    centre or on an index outside 0..8 changes nothing. *)
Theorem circles_sit_in_their_cell (track : Track) (t : Z) (s : Session)
    (log : list Fired) :
  Reachable track t s log ->
  (forall cell c,
      In cell (cells s) -> In c (circles cell) ->
      cellIndex c = index cell /\ id_cellIndex (id c) = index cell)
  /\ (forall cell,
         In cell (cells s) -> index cell = CENTER_INDEX -> circles cell = [])
  /\ List.NoDup (List.map id (flat_map circles (cells s)))
  /\ (forall ci now,
         ci = CENTER_INDEX \/ ci < 0 \/ 8 < ci ->
         handleCellPress ci now (cells s) = cells s).
Proof.
  intros Hreach.
  pose proof (Reachable_record track t s log Hreach) as Hrec.
  pose proof (Reachable_ok track t s log Hreach) as [[Hidx Hcells _ _] _].
  rewrite List.Forall_forall in Hrec, Hcells.
  assert (forall cell c,
             In cell (cells s) -> In c (circles cell) ->
             cellIndex c = index cell /\ id_cellIndex (id c) = index cell)
    as Hplace.
  { intros cell c Hcell Hc. specialize (Hrec cell Hcell).
    unfold cellRecordOk in Hrec. rewrite List.Forall_forall in Hrec.
    destruct (Hrec c Hc) as [_ Hi].
    destruct (Reachable_cellIndex_valid track t s log cell c Hreach Hcell Hc)
      as [Hid _]. split; congruence. }
  assert (forall cell,
             In cell (cells s) -> index cell = CENTER_INDEX ->
             circles cell = []) as Hcentre.
  { intros cell Hcell Hfour. destruct (circles cell) as [|c l] eqn:Hl;
      [reflexivity|]. exfalso.
    assert (In c (circles cell)) as Hc by (rewrite Hl; now left).
    destruct (Reachable_cellIndex_valid track t s log cell c Hreach Hcell Hc)
      as (_ & _ & Hne).
    destruct (Hplace cell c Hcell Hc) as [Hi _]. congruence. }
  split; [assumption|]. split; [assumption|]. split.
  - apply NoDup_grid_ids.
    + rewrite Hidx. apply NoDup_gridIndexes.
    + intros cell Hcell. now destruct (Hcells cell Hcell).
    + intros cell c Hcell Hc. now destruct (Hplace cell c Hcell Hc).
  - intros ci now Hci. apply handleCellPress_noop.
    intros cell c Hcell Hindex Hc _.
    destruct Hci as [Hfour|Hout].
    + rewrite (Hcentre cell Hcell) in Hc; [destruct Hc|congruence].
    + assert (In (index cell) gridIndexes) as Hgrid
          by (rewrite <- Hidx; now apply in_map).
      unfold gridIndexes in Hgrid. cbn in Hgrid. lia.
Qed.

(** X7. In every reachable session each circle keeps the timing it was
    spawned with: a growth duration of 1000 ms, the perfect time at
    [startTime + duration], the hit window from 150 ms before to 200 ms
    after the perfect time, and a start time that is not in the future. *)
Theorem circles_keep_spawn_timing (track : Track) (t : Z) (s : Session)
    (log : list Fired) (cell : GridCell) (c : Circle) :
  Reachable track t s log -> In cell (cells s) -> In c (circles cell) ->
  duration c = GROWTH_DURATION
  /\ perfectTime c = startTime c + duration c
  /\ hitWindowStart c = perfectTime c - HIT_WINDOW_START
  /\ hitWindowEnd c = perfectTime c + HIT_WINDOW_DURATION
  /\ startTime c <= t.
Proof.
  intros Hreach Hcell Hc.
  apply Reachable_ok in Hreach as [[_ Hcells _ _] _].
  rewrite List.Forall_forall in Hcells.
  destruct (Hcells cell Hcell) as [_ Heach _].
  rewrite List.Forall_forall in Heach.
  destruct (Heach c Hc) as [Hd Hst Hws Hwe Hp _ _ _].
  rewrite Hp, Hws, Hwe, Hd. repeat split; trivial; lia.
Qed.

Lemma circles_keep_spawn_timing_aux (track : Track) (t : Z) (s : Session)
    (log : list Fired) (cell : GridCell) (c : Circle) :
  Reachable track t s log -> In cell (cells s) -> In c (circles cell) ->
  hitWindowStart c = perfectTime c - 150
  /\ hitWindowEnd c = perfectTime c + 200
  /\ (hitStatus c = None <-> hitTime c = None).
Proof.
  intros Hreach Hcell Hc.
  apply Reachable_ok in Hreach as [[_ Hcells _ _] _].
  rewrite List.Forall_forall in Hcells.
  destruct (Hcells cell Hcell) as [_ Heach _].
  rewrite List.Forall_forall in Heach.
  destruct (Heach c Hc) as [Hd Hst Hws Hwe Hp _ Hres _].
  rewrite Hp, Hws, Hwe. unfold GROWTH_DURATION, HIT_WINDOW_START,
    HIT_WINDOW_DURATION. repeat split; try lia; apply Hres.
Qed.

(** X8. In every reachable session the resolution of a circle is
    consistent: [hitStatus] is never 'incorrect'; an unresolved circle has
    neither hit time nor rating; a missed one has no rating and a hit time
    later than [hitWindowEnd + 50]; a hit one has a hit time inside its
    window (at most 150 ms early, 200 ms late), the rating of that time
    against its perfect time, its size frozen at the growth of that time,
    and it sits on its target position. *)
Theorem resolution_records_are_consistent (track : Track) (t : Z)
    (s : Session) (log : list Fired) (cell : GridCell) (c : Circle) :
  Reachable track t s log -> In cell (cells s) -> In c (circles cell) ->
  hitStatus c <> Some incorrect
  /\ (hitStatus c = None -> hitTime c = None /\ hitRating c = None)
  /\ (hitStatus c = Some miss ->
      hitRating c = None
      /\ exists th, hitTime c = Some th /\ hitWindowEnd c + 50 < th <= t)
  /\ (hitStatus c = Some correct ->
      exists th,
        hitTime c = Some th
        /\ perfectTime c - 150 <= th <= perfectTime c + 200
        /\ th <= t
        /\ hitRating c = Some (calculateHitRating th (perfectTime c))
        /\ size c = growth th c
        /\ currentPosition c = targetPosition c).
Proof.
  intros Hreach Hcell Hc.
  pose proof (Reachable_record track t s log Hreach) as Hrec.
  destruct (circles_keep_spawn_timing_aux track t s log cell c Hreach Hcell Hc)
    as (Hws & Hwe & Hres).
  rewrite List.Forall_forall in Hrec. specialize (Hrec cell Hcell).
  unfold cellRecordOk in Hrec. rewrite List.Forall_forall in Hrec.
  destruct (Hrec c Hc) as [Hr _]. unfold recordOk in Hr.
  destruct (hitStatus c) as [[| |]|] eqn:Hs.
  - destruct Hr as (th & Hth & Hwin & Hle & Hrest).
    split; [discriminate|]. split; [discriminate|]. split; [discriminate|].
    intros _. exists th. repeat split; try tauto; lia.
  - destruct Hr.
  - destruct Hr as (Hrating & th & Hth & Hlate & Hle).
    split; [discriminate|]. split; [discriminate|].
    split; [|discriminate]. intros _. split; [assumption|].
    exists th. repeat split; trivial.
  - split; [discriminate|]. split; [|split; discriminate].
    intros _. split; [now apply Hres|assumption].
Qed.

Lemma identity_advanceCircle (now : Z) (c : Circle) :
  identity (advanceCircle now c) = identity c.
Proof.
  unfold advanceCircle, identity. destruct (hitStatus c); [reflexivity|].
  cbv zeta. now destruct (_ <? now).
Qed.

(** X9. The identity of a circle never changes: the per-frame advance
    keeps id, start time, duration, hit window, perfect time, cell index,
    spawn position and target position, and over every transition of a
    reachable session a circle that is still in its cell afterwards has
    the same values in these fields. *)
Theorem circle_identity_is_immutable :
  (forall now c, identity (advanceCircle now c) = identity c)
  /\ (forall track t s log i,
         Reachable track t s log ->
         t <= clockIn i -> clockIn i <= clockOut i ->
         Forall2
           (fun cell cell' =>
              forall c c',
                In c (circles cell) -> In c' (circles cell') ->
                id c' = id c -> identity c' = identity c)
           (cells s) (cells (fst (step track i s log)))).
Proof.
  split; [exact identity_advanceCircle|].
  intros track t s log i Hreach Hin Hout.
  apply Reachable_ok in Hreach.
  destruct i as [now|vp nowSpawn now|ci now|now]; cbn [clockIn clockOut] in *.
  - cbn [step fst startTrack cells]. destruct Hreach as [[Hidx _ _ _] _].
    apply emptyCells_related; [assumption|]. intros cell i Hi c c' _ [].
  - rewrite cells_step_frame.
    pose proof (spawnFromTrack_ok vp track t nowSpawn s log Hin Hreach)
      as [[_ Hcells _ _] _].
    rewrite List.Forall_forall in Hcells.
    apply (Forall2_map_compose extends);
      [apply spawnFromTrack_extends|].
    intros a b _ Hb [Hidx [spawned Hcircles]] c c' Hc Hc' Hid.
    cbn [animateCell circles] in Hc'.
    apply filter_In in Hc' as [Hc' _].
    apply in_map_iff in Hc' as (c1 & <- & Hc1).
    rewrite id_advanceCircle in Hid.
    assert (c1 = c) as ->.
    { destruct (Hcells b Hb) as [Hnd _ _].
      apply (NoDup_map_eq id (circles b)); trivial.
      rewrite Hcircles. apply in_or_app. now left. }
    apply identity_advanceCircle.
  - cbn [step fst cells]. destruct Hreach as [[_ Hcells _ _] _].
    rewrite List.Forall_forall in Hcells.
    apply Forall2_map_same. intros cell Hcell c c' Hc Hc' Hid.
    destruct (Hcells cell Hcell) as [Hnd _ _].
    destruct (negb _).
    + now rewrite (NoDup_map_eq id (circles cell) c' c).
    + destruct (sortedCircles now cell) as [|[w sz] rest] eqn:Hsorted.
      * rewrite (pressCell_no_winner _ _ Hsorted) in Hc'.
        now rewrite (NoDup_map_eq id (circles cell) c' c).
      * rewrite (pressCell_winner _ _ _ _ _ Hsorted) in Hc'.
        cbn [circles] in Hc'.
        apply in_map_iff in Hc' as (c0 & <- & Hc0).
        assert (id c0 = id c) as Hid0
            by (rewrite <- Hid; now destruct (bool_decide _)).
        rewrite (NoDup_map_eq id (circles cell) c0 c) by assumption.
        destruct (bool_decide (id c = id w)); reflexivity.
  - cbn [step fst]. rewrite cells_checkTrackFinished.
    destruct Hreach as [[_ Hcells _ _] _].
    rewrite List.Forall_forall in Hcells.
    apply Forall2_same. intros cell Hcell c c' Hc Hc' Hid.
    destruct (Hcells cell Hcell) as [Hnd _ _].
    now rewrite (NoDup_map_eq id (circles cell) c' c).
Qed.

(** ** What the player sees *)

Lemma calculateHitRating_bands (th P : Z) :
  (Z.abs (th - P) <= 25 -> calculateHitRating th P = perfect)
  /\ (25 < Z.abs (th - P) <= 50 -> calculateHitRating th P = great)
  /\ (50 < Z.abs (th - P) <= 100 -> calculateHitRating th P = good)
  /\ (100 < Z.abs (th - P) -> calculateHitRating th P = ok).
Proof.
  unfold calculateHitRating, PERFECT_WINDOW, GREAT_WINDOW, GOOD_WINDOW.
  cbv zeta. repeat split; intros Hd;
    repeat match goal with
           | |- context [?a <=? ?b] => destruct (Z.leb_spec a b); try lia
           end; reflexivity.
Qed.

(** X10. In every reachable session the colour of a circle tells its
    resolution: it is the default orange exactly for an unresolved circle
    and red exactly for a missed one; a hit circle shows its rating label
    and the colour of the distance between its hit time and its perfect
    time: gold up to 25 ms, green up to 50, blue up to 100, emerald
    beyond. *)
Theorem circleColor_tells_resolution (track : Track) (t : Z) (s : Session)
    (log : list Fired) (cell : GridCell) (c : Circle) :
  Reachable track t s log -> In cell (cells s) -> In c (circles cell) ->
  (circleColor c = "#d93900"%string <-> hitStatus c = None)
  /\ (circleColor c = "#ef4444"%string <-> hitStatus c = Some miss)
  /\ (showsRating c = true <-> hitStatus c = Some correct)
  /\ (hitStatus c = Some correct ->
      exists th,
        hitTime c = Some th
        /\ (Z.abs (th - perfectTime c) <= 25 ->
            circleColor c = "#fbbf24"%string)
        /\ (25 < Z.abs (th - perfectTime c) <= 50 ->
            circleColor c = "#22c55e"%string)
        /\ (50 < Z.abs (th - perfectTime c) <= 100 ->
            circleColor c = "#3b82f6"%string)
        /\ (100 < Z.abs (th - perfectTime c) ->
            circleColor c = "#10b981"%string)).
Proof.
  intros Hreach Hcell Hc.
  pose proof (Reachable_record track t s log Hreach) as Hrec.
  rewrite List.Forall_forall in Hrec. specialize (Hrec cell Hcell).
  unfold cellRecordOk in Hrec. rewrite List.Forall_forall in Hrec.
  destruct (Hrec c Hc) as [Hr _]. unfold recordOk in Hr.
  unfold circleColor, showsRating.
  destruct (hitStatus c) as [[| |]|] eqn:Hs.
  - destruct Hr as (th & Hth & _ & _ & Hrating & _). rewrite Hrating.
    split; [split; [destruct (calculateHitRating _ _)|]; discriminate|].
    split; [split; [destruct (calculateHitRating _ _)|]; discriminate|].
    split; [tauto|]. intros _. exists th. split; [assumption|].
    destruct (calculateHitRating_bands th (perfectTime c))
      as (H1 & H2 & H3 & H4).
    repeat split; intros Hd;
      [rewrite (H1 Hd)|rewrite (H2 Hd)|rewrite (H3 Hd)|rewrite (H4 Hd)];
      reflexivity.
  - destruct Hr.
  - cbn. repeat split; try discriminate; try reflexivity.
  - cbn. repeat split; try discriminate; try reflexivity.
Qed.

Lemma Reachable_circleOk (track : Track) (t : Z) (s : Session)
    (log : list Fired) (cell : GridCell) (c : Circle) :
  Reachable track t s log -> In cell (cells s) -> In c (circles cell) ->
  circleOk t c.
Proof.
  intros Hreach Hcell Hc.
  apply Reachable_ok in Hreach as [[_ Hcells _ _] _].
  rewrite List.Forall_forall in Hcells.
  destruct (Hcells cell Hcell) as [_ Heach _].
  rewrite List.Forall_forall in Heach. now apply Heach.
Qed.

(** X11. In every reachable session a circle is drawn inside its cell: its
    radius is never negative and its diameter never exceeds the smaller
    side of the cell element (100 px when the element is missing). *)
Theorem circleRadius_fits_the_cell (track : Track) (t : Z) (s : Session)
    (log : list Fired) (cell : GridCell) (c : Circle) :
  Reachable track t s log -> In cell (cells s) -> In c (circles cell) ->
  (forall width height,
      (0 <= width)%Q -> (0 <= height)%Q ->
      (0 <= circleRadius (Some (width, height)) c)%Q
      /\ (2 * circleRadius (Some (width, height)) c <= Qmin width height)%Q)
  /\ (0 <= circleRadius None c)%Q
  /\ (2 * circleRadius None c <= 100)%Q.
Proof.
  intros Hreach Hcell Hc.
  destruct (Reachable_circleOk track t s log cell c Hreach Hcell Hc)
    as [_ _ _ _ _ [Hlo Hhi] _ _].
  unfold circleRadius. split; [|split; nra].
  intros width height Hw Hh.
  assert (0 <= Qmin width height)%Q as Hmin by now apply Q.min_glb.
  set (m := Qmin width height) in *.
  assert (m / 2 == m * (1 # 2))%Q as -> by reflexivity.
  split; nra.
Qed.

Lemma growth_ratio (now : Z) (c : Circle) :
  duration c = GROWTH_DURATION ->
  (growth now c == Qmin (inject_Z (now - startTime c) * (1 # 1000)) 1)%Q.
Proof. intros Hd. unfold growth. rewrite Hd. reflexivity. Qed.

(** X12. For every circle of a reachable session the growth
    [min(elapsed / duration, 1)] never decreases with time, is 0 at the
    start time, is 1 exactly from the perfect time on, and is at least
    0.85 whenever the circle is eligible for a press. *)
Theorem growth_over_time (track : Track) (t : Z) (s : Session)
    (log : list Fired) (cell : GridCell) (c : Circle) :
  Reachable track t s log -> In cell (cells s) -> In c (circles cell) ->
  (forall now now', now <= now' -> (growth now c <= growth now' c)%Q)
  /\ (growth (startTime c) c == 0)%Q
  /\ (forall now, (growth now c == 1)%Q <-> perfectTime c <= now)
  /\ (forall now, eligible now c -> (85 # 100 <= growth now c)%Q).
Proof.
  intros Hreach Hcell Hc.
  destruct (Reachable_circleOk track t s log cell c Hreach Hcell Hc)
    as [Hd _ Hws Hwe Hp _ _ _].
  unfold GROWTH_DURATION, HIT_WINDOW_START, HIT_WINDOW_DURATION in *.
  assert (forall now,
             (growth now c
              == Qmin (inject_Z (now - startTime c) * (1 # 1000)) 1)%Q)
    as Hg by (intros; now apply growth_ratio).
  split; [|split; [|split]].
  - intros now now' Hle. rewrite !Hg.
    assert (inject_Z (now - startTime c) <= inject_Z (now' - startTime c))%Q
      as Hq by (rewrite <- Zle_Qle; lia).
    apply Q.min_le_compat_r. nra.
  - rewrite Hg, Z.sub_diag. reflexivity.
  - intros now. rewrite Hg, Hp. split.
    + intros Heq.
      destruct (Z_lt_le_dec (now - startTime c) 1000) as [Hlt|Hge]; [|lia].
      exfalso. rewrite Zlt_Qlt in Hlt. change (inject_Z 1000) with 1000%Q in Hlt.
      rewrite Q.min_l in Heq by nra. nra.
    + intros Hge.
      assert (inject_Z 1000 <= inject_Z (now - startTime c))%Q as Hq
          by (rewrite <- Zle_Qle; lia).
      change (inject_Z 1000) with 1000%Q in Hq.
      apply Q.min_r. nra.
  - intros now [_ [Hstart _]]. rewrite Hg.
    assert (inject_Z 850 <= inject_Z (now - startTime c))%Q as Hq
        by (rewrite <- Zle_Qle; lia).
    change (inject_Z 850) with 850%Q in Hq.
    apply Q.min_glb; [nra|discriminate].
Qed.

Lemma eligibleCount_pressCell (now : Z) (cell : GridCell) :
  List.NoDup (List.map id (circles cell)) ->
  eligibleCount now (pressCell now cell) = Nat.pred (eligibleCount now cell).
Proof.
  intros Hnd. destruct (sortedCircles now cell) as [|[w sz] rest] eqn:Hsorted.
  - rewrite (pressCell_no_winner _ _ Hsorted).
    assert (eligibleCount now cell = 0%nat) as ->; [|reflexivity].
    unfold eligibleCount.
    destruct (List.filter _ _) as [|c l] eqn:Hf; [reflexivity|exfalso].
    assert (In c (c :: l)) as Hin by now left.
    rewrite <- Hf in Hin. apply filter_In in Hin as [Hin Hc].
    apply eligible_iff in Hc.
    now apply (proj1 (sortedCircles_nil now cell) Hsorted c Hin).
  - rewrite (pressCell_winner _ _ _ _ _ Hsorted).
    destruct (sortedCircles_winner _ _ _ _ _ Hsorted)
      as (l1 & l2 & Hcell & _ & Hw & _).
    unfold eligibleCount. cbn [circles]. rewrite Hcell in *.
    rewrite map_update_unique by assumption.
    rewrite !List.filter_app. cbn [List.filter].
    apply eligible_iff in Hw. rewrite Hw.
    unfold isUnhit at 2. cbn [hitStatus markHit andb].
    rewrite !length_app. cbn [length]. lia.
Qed.

(** X13. A press on a cell of a reachable session keeps every cell's
    circles (same identifiers, same order) and consumes at most one
    candidate: in the pressed cell the number of circles still eligible at
    the press time drops by one (stays 0 when there was none), in every
    other cell it is unchanged. *)
Theorem press_consumes_one_candidate (track : Track) (t : Z) (s : Session)
    (log : list Fired) (cellIndex now : Z) :
  Reachable track t s log ->
  Forall2 (fun cell cell' =>
             index cell' = index cell
             /\ List.map id (circles cell') = List.map id (circles cell)
             /\ eligibleCount now cell'
                = if index cell =? cellIndex
                  then Nat.pred (eligibleCount now cell)
                  else eligibleCount now cell)
          (cells s) (handleCellPress cellIndex now (cells s)).
Proof.
  intros Hreach. apply Reachable_ok in Hreach as [[_ Hcells _ _] _].
  rewrite List.Forall_forall in Hcells.
  unfold handleCellPress. apply Forall2_map_same. intros cell Hcell.
  destruct (index cell =? cellIndex); cbn [negb]; [|now repeat split].
  split; [apply index_pressCell|]. split; [apply ids_pressCell|].
  apply eligibleCount_pressCell. apply (Hcells cell Hcell).
Qed.

(** ** The sample track *)

Lemma pushRound_snoc (round : list Z) (gap : Q) (st : list RawItem * Q) :
  exists pushed,
    fst (pushRound round gap st) = fst st ++ pushed
    /\ List.map rawCellIndex pushed = round
    /\ (snd (pushRound round gap st)
        == snd st + inject_Z (Z.of_nat (length round)) * gap)%Q
    /\ ((0 <= gap)%Q ->
        Forall (fun r => (snd st <= rawSpawnTime r)%Q
                         /\ (rawSpawnTime r + gap
                             <= snd (pushRound round gap st))%Q) pushed).
Proof.
  revert st. induction round as [|ci round IH]; intros st.
  - exists []. cbn. rewrite app_nil_r. repeat split; [ring|constructor].
  - unfold pushRound. cbn [fold_left]. fold (pushRound round gap
      (fst st ++ [mkRawItem ci (snd st)], Qred (snd st + gap))).
    destruct (IH (fst st ++ [mkRawItem ci (snd st)], Qred (snd st + gap)))
      as (pushed & Hfst & Hcells & Hsnd & Hbounds).
    cbn [fst snd] in *.
    pose proof (Qred_correct (snd st + gap)) as Hred.
    exists (mkRawItem ci (snd st) :: pushed).
    split; [now rewrite Hfst, <- app_assoc|].
    split; [cbn; now rewrite Hcells|]. split.
    + rewrite Hsnd, Hred. cbn [length].
      rewrite Nat2Z.inj_succ, <- Z.add_1_r.
      rewrite inject_Z_plus. change (inject_Z 1) with 1%Q. ring.
    + intros Hgap. specialize (Hbounds Hgap).
      assert (0 <= inject_Z (Z.of_nat (length round)))%Q as Hn.
      { change 0%Q with (inject_Z 0). rewrite <- Zle_Qle. lia. }
      constructor.
      * cbn [rawSpawnTime]. split; [lra|]. rewrite Hsnd. nra.
      * eapply List.Forall_impl; [|exact Hbounds]. cbn. intros r [H1 H2].
        split; [lra|assumption].
Qed.

(** X14. Each loop of [generateSampleTrack] keeps the items pushed so far,
    appends one item per cell of its round in order, and advances the
    clock by the gap for each of them; with a non-negative gap every
    pushed time lies between the clock before and after the loop. *)
Theorem generateSampleTrack_round (round : list Z) (gap : Q)
    (track : list RawItem) (currentTime : Q) :
  (0 <= gap)%Q ->
  exists pushed,
    fst (pushRound round gap (track, currentTime)) = track ++ pushed
    /\ List.map rawCellIndex pushed = round
    /\ (snd (pushRound round gap (track, currentTime))
        == currentTime + inject_Z (Z.of_nat (length round)) * gap)%Q
    /\ Forall (fun r =>
                 (currentTime <= rawSpawnTime r)%Q
                 /\ (rawSpawnTime r + gap
                     <= snd (pushRound round gap (track, currentTime)))%Q)
              pushed.
Proof.
  intros Hgap.
  destruct (pushRound_snoc round gap (track, currentTime))
    as (pushed & Hfst & Hcells & Hsnd & Hbounds).
  exists pushed. repeat split; try assumption. now apply Hbounds.
Qed.

Lemma sampleTrack_valid :
  Forall (fun item => invalidCellIndex (itemCellIndex item) = false)
         generateSampleTrack.
Proof.
  assert (forallb (fun item => negb (invalidCellIndex (itemCellIndex item)))
                  generateSampleTrack = true)
    as Hall by (vm_compute; reflexivity).
  apply List.Forall_forall. intros item Hin.
  apply negb_true_iff. revert item Hin. now apply forallb_forall.
Qed.

Lemma sampleTrack_sorted :
  Sorted Z.lt (List.map spawnTime generateSampleTrack).
Proof. vm_compute. repeat constructor. Qed.

(** X15. The sample track has 56 events, seven for each of the eight outer
    cells and none for the centre or an index outside the grid.  Its spawn
    times are whole milliseconds, strictly increasing from 0 to 46140, so
    the final sort leaves the order in which the events were pushed. *)
Theorem generateSampleTrack_is_sorted :
  jsSort (fun a b => (rawSpawnTime a - rawSpawnTime b)%Q) rawSampleTrack
  = rawSampleTrack
  /\ Forall (fun r => (inject_Z (Qfloor (rawSpawnTime r))
                       == rawSpawnTime r)%Q) rawSampleTrack
  /\ length generateSampleTrack = 56%nat
  /\ StronglySorted Z.lt (List.map spawnTime generateSampleTrack)
  /\ List.map spawnTime (firstn 1 generateSampleTrack) = [0]
  /\ List.map spawnTime (skipn 55 generateSampleTrack) = [46140]
  /\ Forall (fun item => invalidCellIndex (itemCellIndex item) = false)
            generateSampleTrack
  /\ Forall (fun ci => eventsFor generateSampleTrack ci = 7%nat) allCells.
Proof.
  split; [vm_compute; reflexivity|].
  split.
  { assert (forallb (fun r => Qeq_bool (inject_Z (Qfloor (rawSpawnTime r)))
                                       (rawSpawnTime r)) rawSampleTrack
            = true) as Hall by (vm_compute; reflexivity).
    apply List.Forall_forall. intros r Hin.
    apply Qeq_bool_iff. revert r Hin. now apply forallb_forall. }
  split; [vm_compute; reflexivity|].
  split.
  { apply Sorted_StronglySorted; [|exact sampleTrack_sorted].
    intros a b c. apply Z.lt_trans. }
  split; [vm_compute; reflexivity|].
  split; [vm_compute; reflexivity|].
  split; [exact sampleTrack_valid|].
  assert (forallb (fun ci => (eventsFor generateSampleTrack ci =? 7)%nat)
                  allCells = true) as Hall by (vm_compute; reflexivity).
  apply List.Forall_forall. intros ci Hin.
  apply Nat.eqb_eq. revert ci Hin. now apply forallb_forall.
Qed.

Lemma sample_reachable :
  Reachable generateSampleTrack 900 sampleRunSession sampleRunLog.
Proof.
  exact (Reachable_run generateSampleTrack sampleRunInputs 0 initialSession []
           (Reachable_init _ 0) eq_refl).
Qed.

Lemma sampleTrack_last :
  exists first rest,
    generateSampleTrack = first :: rest /\ lastSpawnTime first rest = 46140.
Proof.
  exists (hd (mkTrackItem 0 0) generateSampleTrack), (tl generateSampleTrack).
  split; vm_compute; reflexivity.
Qed.

(** X16. In every session reachable on the sample track the events fire in
    non-decreasing spawn-time order, every fired event has put a circle in
    its cell (none is for the centre or outside the grid), at most 56
    events have fired, and the completion check ends a run exactly when
    more than 47440 ms have passed since its start. *)
Theorem sample_track_run (t : Z) (s : Session) (log : list Fired) :
  Reachable generateSampleTrack t s log ->
  StronglySorted Z.le (firedSpawnTimes log)
  /\ Forall (fun f =>
               exists c,
                 firedCircle f = Some c
                 /\ id c = mkCircleId (itemCellIndex (firedItem f))
                                      (spawnTime (firedItem f))
                                      (firedIndex f)) log
  /\ (length log <= 56)%nat
  /\ (forall now start,
         isPlaying s = true -> trackStartTime s = Some start ->
         checkTrackFinished generateSampleTrack now s
         = if 47440 <? now - start then stopped s else s).
Proof.
  intros Hreach.
  assert (Sorted Z.le (List.map spawnTime generateSampleTrack)) as Hsorted.
  { pose proof sampleTrack_sorted as Hlt.
    induction Hlt as [|a l _ IH Hhd]; constructor; [exact IH|].
    destruct Hhd; constructor. lia. }
  pose proof (Reachable_order _ _ _ _ Hsorted Hreach) as [Horder _].
  apply Reachable_ok in Hreach as [[_ _ Honce Hfired] _].
  split; [exact Horder|]. split; [|split].
  - eapply List.Forall_impl; [|exact Hfired]. intros f [Hnth Hcircle].
    destruct (firedCircle f) as [c|].
    + exists c. split; [reflexivity|apply Hcircle].
    + exfalso. pose proof sampleTrack_valid as Hvalid.
      rewrite List.Forall_forall in Hvalid.
      apply nth_error_In in Hnth. apply Hvalid in Hnth. congruence.
  - rewrite <- (length_map firedIndex).
    change 56%nat with (length (seq 0 56)).
    apply List.NoDup_incl_length; [exact Honce|].
    intros k Hk. apply in_map_iff in Hk as (f & <- & Hf).
    rewrite List.Forall_forall in Hfired.
    destruct (Hfired f Hf) as [Hnth _].
    apply in_seq. split; [lia|]. cbn.
    assert (nth_error generateSampleTrack (firedIndex f) <> None) as Hsome
        by congruence.
    apply nth_error_Some in Hsome.
    replace (length generateSampleTrack) with 56%nat in Hsome
      by (vm_compute; reflexivity).
    exact Hsome.
  - intros now start Hplay Hstart. unfold checkTrackFinished.
    rewrite Hplay, Hstart. cbn [negb].
    destruct sampleTrack_last as (first & rest & -> & ->).
    change (46140 + GROWTH_DURATION + HIT_WINDOW_DURATION
            + HIT_FEEDBACK_DURATION) with 47440.
    reflexivity.
Qed.

(** ** Positions *)







(** ** The further properties at sample inputs *)

Lemma overlapCircle_in :
  In overlapCell (cells overlapSession)
  /\ In overlapCircle (circles overlapCell)
  /\ hitStatus overlapCircle = None
  /\ eligible 960 overlapCircle.
Proof.
  split; [vm_compute; tauto|]. split; [vm_compute; tauto|].
  split; [vm_compute; reflexivity|]. vm_compute.
  split; [reflexivity|split; discriminate].
Qed.

Lemma pressedCircle_in :
  In pressedCell (cells pressedSession)
  /\ In pressedCircle (circles pressedCell)
  /\ hitStatus pressedCircle = Some correct.
Proof.
  split; [vm_compute; tauto|]. split; [vm_compute; tauto|].
  vm_compute. reflexivity.
Qed.

(** X1 at the keys Up and Left, at cell 2, and at the presses of Up then
    Left. *)
Lemma getCellIndexFromKeys_range_witness :
  (getCellIndexFromKeys ["ArrowUp"; "ArrowLeft"]%string = Some 0
   /\ 0 <= 0 <= 8 /\ 0 <> CENTER_INDEX)
  /\ ((0 <= 2 <= 8 /\ 2 <> CENTER_INDEX)
      /\ exists keys,
           arrowSet keys /\ (length keys <= 2)%nat
           /\ getCellIndexFromKeys keys = Some 2)
  /\ (In 0 (snd (handleKeys [KeyDown "ArrowUp"; KeyDown "ArrowLeft"]
                            initialKeys))
      /\ 0 <= 0 <= 8 /\ 0 <> CENTER_INDEX).
Proof.
  pose proof getCellIndexFromKeys_range as (Hrange & Hall & Hpress).
  assert (getCellIndexFromKeys ["ArrowUp"; "ArrowLeft"]%string = Some 0)
    as Hkeys by reflexivity.
  assert (0 <= 2 <= 8) as H2 by lia.
  assert (2 <> CENTER_INDEX) as H2' by discriminate.
  assert (In 0 (snd (handleKeys [KeyDown "ArrowUp"; KeyDown "ArrowLeft"]
                                initialKeys))) as Hin
      by (vm_compute; tauto).
  exact (conj (conj Hkeys (Hrange _ 0 Hkeys))
           (conj (conj (conj H2 H2') (Hall 2 H2 H2'))
              (conj Hin (Hpress _ initialKeys 0 Hin)))).
Defined.

(** X3 before a run, at a run whose events are all over, and at a run with
    an event still young. *)
Lemma checkTrackFinished_after_every_event_witness :
  ((isPlaying initialSession = false \/ trackStartTime initialSession = None)
   /\ checkTrackFinished overlapTrack 2000 initialSession = initialSession)
  /\ (isPlaying startedSession = true
      /\ trackStartTime startedSession = Some 0)
  /\ ((forall item,
          In item overlapTrack ->
          spawnTime item + GROWTH_DURATION + HIT_WINDOW_DURATION
          + HIT_FEEDBACK_DURATION < 2000 - 0)
      /\ checkTrackFinished overlapTrack 2000 startedSession
         = stopped startedSession)
  /\ ((exists item,
          In item overlapTrack
          /\ 1000 - 0 <= spawnTime item + GROWTH_DURATION
                         + HIT_WINDOW_DURATION + HIT_FEEDBACK_DURATION)
      /\ checkTrackFinished overlapTrack 1000 startedSession
         = startedSession).
Proof.
  pose proof (checkTrackFinished_after_every_event overlapTrack 2000
                initialSession) as (_ & Hidle & _).
  pose proof (checkTrackFinished_after_every_event overlapTrack 2000
                startedSession) as (_ & _ & Hlate).
  pose proof (checkTrackFinished_after_every_event overlapTrack 1000
                startedSession) as (_ & _ & Hearly).
  assert (isPlaying initialSession = false
          \/ trackStartTime initialSession = None) as H0
      by (left; reflexivity).
  assert (isPlaying startedSession = true) as Hplay by reflexivity.
  assert (trackStartTime startedSession = Some 0) as Hstart by reflexivity.
  assert (forall item,
             In item overlapTrack ->
             spawnTime item + GROWTH_DURATION + HIT_WINDOW_DURATION
             + HIT_FEEDBACK_DURATION < 2000 - 0) as Hover.
  { intros item [<- | [<- | [<- | []]]]; reflexivity. }
  assert (exists item,
             In item overlapTrack
             /\ 1000 - 0 <= spawnTime item + GROWTH_DURATION
                            + HIT_WINDOW_DURATION + HIT_FEEDBACK_DURATION)
    as Hyoung.
  { exists (mkTrackItem 3 0). split; [now left|discriminate]. }
  exact (conj (conj H0 (Hidle H0))
           (conj (conj Hplay Hstart)
              (conj (conj Hover (proj1 (Hlate 0 Hplay Hstart) Hover))
                 (conj Hyoung (proj2 (Hearly 0 Hplay Hstart) Hyoung))))).
Defined.

(** X4 at the frame 100 ms after the start of the overlapping track. *)
Lemma spawnFromTrack_fires_due_events_witness :
  (isPlaying startedSession = true
   /\ trackStartTime startedSession = Some 0)
  /\ List.map firedIndex
       (snd (spawnFromTrack sampleViewport overlapTrack 100 startedSession))
     = List.filter
         (fun k => negb (bool_decide (k ∈ spawnedIndices startedSession))
                   && dueAt overlapTrack (100 - 0) k)
         (seq 0 (length overlapTrack)).
Proof.
  assert (isPlaying startedSession = true) as Hplay by reflexivity.
  assert (trackStartTime startedSession = Some 0) as Hstart by reflexivity.
  exact (conj (conj Hplay Hstart)
           (proj1 (spawnFromTrack_fires_due_events sampleViewport
                     overlapTrack 100 startedSession 0 Hplay Hstart))).
Defined.

(** X5 at a frame, a press and a completion check before the first
    start. *)
Lemma idle_session_never_spawns_witness :
  (trackStartTime initialSession = None \/ isPlaying initialSession = false)
  /\ Forall (fun i => forall now, i <> StartTrack now) idleInputs
  /\ snd (run overlapTrack idleInputs initialSession []) = []
  /\ isPlaying (fst (run overlapTrack idleInputs initialSession []))
     = isPlaying initialSession.
Proof.
  assert (trackStartTime initialSession = None
          \/ isPlaying initialSession = false) as Hidle
      by (left; reflexivity).
  assert (Forall (fun i => forall now, i <> StartTrack now) idleInputs)
    as Hinputs.
  { unfold idleInputs.
    constructor; [intros now; discriminate|].
    constructor; [intros now; discriminate|].
    constructor; [intros now; discriminate|constructor]. }
  pose proof (idle_session_never_spawns overlapTrack idleInputs
                initialSession [] Hidle Hinputs) as (Hlog & Hplay & _).
  exact (conj Hidle (conj Hinputs (conj Hlog Hplay))).
Defined.

(** X6 at the overlapping session and a press on the centre. *)
Lemma circles_sit_in_their_cell_witness :
  Reachable overlapTrack 950 overlapSession overlapLog
  /\ (In overlapCell (cells overlapSession)
      /\ In overlapCircle (circles overlapCell)
      /\ cellIndex overlapCircle = index overlapCell
      /\ id_cellIndex (id overlapCircle) = index overlapCell)
  /\ List.NoDup (List.map id (flat_map circles (cells overlapSession)))
  /\ ((4 = CENTER_INDEX \/ 4 < 0 \/ 8 < 4)
      /\ handleCellPress 4 960 (cells overlapSession) = cells overlapSession).
Proof.
  pose proof (circles_sit_in_their_cell overlapTrack 950 overlapSession
                overlapLog overlap_reachable)
    as (Hcell & _ & Hids & Hpress).
  destruct overlapCircle_in as (Hin & Hc & _).
  assert (4 = CENTER_INDEX \/ 4 < 0 \/ 8 < 4) as Hcentre
      by (left; reflexivity).
  exact (conj overlap_reachable
           (conj (conj Hin (conj Hc (Hcell _ _ Hin Hc)))
              (conj Hids (conj Hcentre (Hpress 4 960 Hcentre))))).
Defined.

(** X7 at the first circle of the overlapping session. *)
Lemma circles_keep_spawn_timing_witness :
  Reachable overlapTrack 950 overlapSession overlapLog
  /\ In overlapCell (cells overlapSession)
  /\ In overlapCircle (circles overlapCell)
  /\ duration overlapCircle = GROWTH_DURATION
  /\ perfectTime overlapCircle
     = startTime overlapCircle + duration overlapCircle
  /\ hitWindowStart overlapCircle
     = perfectTime overlapCircle - HIT_WINDOW_START
  /\ hitWindowEnd overlapCircle
     = perfectTime overlapCircle + HIT_WINDOW_DURATION
  /\ startTime overlapCircle <= 950.
Proof.
  destruct overlapCircle_in as (Hin & Hc & _).
  exact (conj overlap_reachable
           (conj Hin
              (conj Hc
                 (circles_keep_spawn_timing overlapTrack 950 overlapSession
                    overlapLog _ _ overlap_reachable Hin Hc)))).
Defined.

(** X8 at the circle the press at 960 has resolved. *)
Lemma resolution_records_are_consistent_witness :
  Reachable overlapTrack 960 pressedSession pressedLog
  /\ In pressedCell (cells pressedSession)
  /\ In pressedCircle (circles pressedCell)
  /\ hitStatus pressedCircle = Some correct
  /\ exists th,
       hitTime pressedCircle = Some th
       /\ perfectTime pressedCircle - 150 <= th
          <= perfectTime pressedCircle + 200
       /\ th <= 960
       /\ hitRating pressedCircle
          = Some (calculateHitRating th (perfectTime pressedCircle))
       /\ size pressedCircle = growth th pressedCircle
       /\ currentPosition pressedCircle = targetPosition pressedCircle.
Proof.
  destruct pressedCircle_in as (Hin & Hc & Hs).
  pose proof (resolution_records_are_consistent overlapTrack 960
                pressedSession pressedLog _ _ pressed_reachable Hin Hc)
    as (_ & _ & _ & Hcorrect).
  exact (conj pressed_reachable
           (conj Hin (conj Hc (conj Hs (Hcorrect Hs))))).
Defined.

(** X9 at the press on cell 3 of the overlapping session. *)
Lemma circle_identity_is_immutable_witness :
  Reachable overlapTrack 950 overlapSession overlapLog
  /\ 950 <= clockIn (CellPress 3 960)
  /\ clockIn (CellPress 3 960) <= clockOut (CellPress 3 960)
  /\ Forall2
       (fun cell cell' =>
          forall c c',
            In c (circles cell) -> In c' (circles cell') ->
            id c' = id c -> identity c' = identity c)
       (cells overlapSession)
       (cells (fst (step overlapTrack (CellPress 3 960) overlapSession
                         overlapLog))).
Proof.
  pose proof circle_identity_is_immutable as [_ Hstep].
  assert (950 <= clockIn (CellPress 3 960)) as Hin by (cbn; lia).
  assert (clockIn (CellPress 3 960) <= clockOut (CellPress 3 960)) as Hout
      by (cbn; lia).
  exact (conj overlap_reachable
           (conj Hin
              (conj Hout
                 (Hstep overlapTrack 950 overlapSession overlapLog
                    (CellPress 3 960) overlap_reachable Hin Hout)))).
Defined.

(** X10 at the circle the press at 960 has resolved. *)
Lemma circleColor_tells_resolution_witness :
  Reachable overlapTrack 960 pressedSession pressedLog
  /\ In pressedCell (cells pressedSession)
  /\ In pressedCircle (circles pressedCell)
  /\ (circleColor pressedCircle = "#d93900"%string
      <-> hitStatus pressedCircle = None)
  /\ (circleColor pressedCircle = "#ef4444"%string
      <-> hitStatus pressedCircle = Some miss)
  /\ (showsRating pressedCircle = true
      <-> hitStatus pressedCircle = Some correct).
Proof.
  destruct pressedCircle_in as (Hin & Hc & _).
  pose proof (circleColor_tells_resolution overlapTrack 960 pressedSession
                pressedLog _ _ pressed_reachable Hin Hc)
    as (Horange & Hred & Hlabel & _).
  exact (conj pressed_reachable
           (conj Hin (conj Hc (conj Horange (conj Hred Hlabel))))).
Defined.

(** X11 at the first circle of the overlapping session in a cell of 100 by
    80 pixels. *)
Lemma circleRadius_fits_the_cell_witness :
  Reachable overlapTrack 950 overlapSession overlapLog
  /\ In overlapCell (cells overlapSession)
  /\ In overlapCircle (circles overlapCell)
  /\ ((0 <= 100)%Q /\ (0 <= 80)%Q)
  /\ (0 <= circleRadius (Some (100, 80)%Q) overlapCircle)%Q
  /\ (2 * circleRadius (Some (100, 80)%Q) overlapCircle <= Qmin 100 80)%Q.
Proof.
  destruct overlapCircle_in as (Hin & Hc & _).
  pose proof (circleRadius_fits_the_cell overlapTrack 950 overlapSession
                overlapLog _ _ overlap_reachable Hin Hc) as [Hfit _].
  assert (0 <= 100)%Q as Hw by discriminate.
  assert (0 <= 80)%Q as Hh by discriminate.
  exact (conj overlap_reachable
           (conj Hin (conj Hc (conj (conj Hw Hh) (Hfit 100%Q 80%Q Hw Hh))))).
Defined.

(** X12 at the first circle of the overlapping session. *)
Lemma growth_over_time_witness :
  Reachable overlapTrack 950 overlapSession overlapLog
  /\ In overlapCell (cells overlapSession)
  /\ In overlapCircle (circles overlapCell)
  /\ (950 <= 960
      /\ (growth 950 overlapCircle <= growth 960 overlapCircle)%Q)
  /\ (eligible 960 overlapCircle
      /\ (85 # 100 <= growth 960 overlapCircle)%Q).
Proof.
  destruct overlapCircle_in as (Hin & Hc & _ & Hel).
  pose proof (growth_over_time overlapTrack 950 overlapSession overlapLog
                _ _ overlap_reachable Hin Hc) as (Hmono & _ & _ & Hbig).
  assert (950 <= 960) as Hle by lia.
  exact (conj overlap_reachable
           (conj Hin
              (conj Hc
                 (conj (conj Hle (Hmono 950 960 Hle))
                    (conj Hel (Hbig 960 Hel)))))).
Defined.

(** X13 at the press on cell 3 of the overlapping session. *)
Lemma press_consumes_one_candidate_witness :
  Reachable overlapTrack 950 overlapSession overlapLog
  /\ Forall2 (fun cell cell' =>
                index cell' = index cell
                /\ List.map id (circles cell') = List.map id (circles cell)
                /\ eligibleCount 960 cell'
                   = if index cell =? 3
                     then Nat.pred (eligibleCount 960 cell)
                     else eligibleCount 960 cell)
             (cells overlapSession)
             (handleCellPress 3 960 (cells overlapSession)).
Proof.
  exact (conj overlap_reachable
           (press_consumes_one_candidate overlapTrack 950 overlapSession
              overlapLog 3 960 overlap_reachable)).
Defined.

(** X14 at the first round of the sample track. *)
Lemma generateSampleTrack_round_witness :
  (0 <= timeBetweenHits)%Q
  /\ exists pushed,
       fst (pushRound allCells timeBetweenHits ([], 0%Q)) = [] ++ pushed
       /\ List.map rawCellIndex pushed = allCells
       /\ (snd (pushRound allCells timeBetweenHits ([], 0%Q))
           == 0 + inject_Z (Z.of_nat (length allCells)) * timeBetweenHits)%Q
       /\ Forall (fun r =>
                    (0 <= rawSpawnTime r)%Q
                    /\ (rawSpawnTime r + timeBetweenHits
                        <= snd (pushRound allCells timeBetweenHits
                                          ([], 0%Q)))%Q)
                 pushed.
Proof.
  assert (0 <= timeBetweenHits)%Q as Hgap by (vm_compute; discriminate).
  exact (conj Hgap
           (generateSampleTrack_round allCells timeBetweenHits [] 0%Q Hgap)).
Defined.

Lemma sampleRun_playing :
  isPlaying sampleRunSession = true
  /\ trackStartTime sampleRunSession = Some 0.
Proof. split; vm_compute; reflexivity. Qed.

(** X16 at the run on the sample track up to 900 ms. *)
Lemma sample_track_run_witness :
  Reachable generateSampleTrack 900 sampleRunSession sampleRunLog
  /\ StronglySorted Z.le (firedSpawnTimes sampleRunLog)
  /\ (length sampleRunLog <= 56)%nat
  /\ ((isPlaying sampleRunSession = true
       /\ trackStartTime sampleRunSession = Some 0)
      /\ checkTrackFinished generateSampleTrack 50000 sampleRunSession
         = if 47440 <? 50000 - 0
           then stopped sampleRunSession else sampleRunSession).
Proof.
  pose proof (sample_track_run 900 sampleRunSession sampleRunLog
                sample_reachable) as (Horder & _ & Hlen & Hend).
  destruct sampleRun_playing as [Hplay Hstart].
  exact (conj sample_reachable
           (conj Horder
              (conj Hlen
                 (conj (conj Hplay Hstart) (Hend 50000 0 Hplay Hstart))))).
Defined.

